(** * A blocking message-passing character device: charDeviceDriverBlocking.c

    The driver keeps one global queue of messages.  [device_write] appends a
    message (blocking while the byte budget is exhausted), [device_read]
    removes the oldest one (blocking while no byte is queued) and
    [device_ioctl] changes the byte budget.

    The C code is embedded shallowly.  Kernel memory is a finite map from
    addresses to three kinds of objects (queue nodes, message descriptors and
    character buffers), the two globals [queuep] and [MAX_MESSAGES_SIZE] are
    fields of the machine state, and every C function becomes a computation
    in a small state monad whose results are: a return value with the new
    state, a sleep on a wait queue, or a kernel oops (invalid dereference). *)

From stdpp Require Import base option gmap list numbers fin_maps.
From Stdlib Require Import ZArith Lia.
From Stdlib.Strings Require Import Byte.

Local Open Scope Z_scope.

(** ** Machine integers *)

(** [unsigned long] and [size_t] are 64 bits wide, [unsigned short] 16. *)
Definition ULONG_MODULUS : Z := 2 ^ 64.
Definition USHRT_MODULUS : Z := 2 ^ 16.
Definition to_ulong (z : Z) : Z := z mod ULONG_MODULUS.
Definition to_ushort (z : Z) : Z := z mod USHRT_MODULUS.

(** Characters are bytes; equality on them is decidable. *)
#[global] Instance byte_eq_dec : EqDecision byte := Byte.byte_eq_dec.

(** ** Constants of charDeviceDriver.h and of errno.h *)

Definition SUCCESS : Z := 0.
Definition MAX_MESSAGE_SIZE : Z := 4096.
Definition CHANGE_MAX_MESSAGES_SIZE : Z := 0.
Definition MAX_MESSAGES_SIZE_DEFAULT : Z := 2097152.
Definition EFAULT : Z := 14.
Definition EINVAL : Z := 22.

(** ** Kernel memory *)

Definition ptr := N.
Definition NULL : ptr := 0%N.

(** [ZERO_SIZE_PTR] of include/linux/slab.h, [((void * )16)]: what [kmalloc]
    returns for a request of 0 bytes.  No object lives at an address up to
    it: dereferencing such a pointer faults, and [kfree] ignores it. *)
Definition ZERO_SIZE_PTR : ptr := 16%N.
Definition ZERO_OR_NULL_PTR (p : ptr) : bool :=
  bool_decide (p ≤ ZERO_SIZE_PTR)%N.

(** The objects the driver allocates: [struct message_queue_node],
    [struct message_queue_data] and the [char] array of a message. *)
Inductive object : Type :=
| Node (data : ptr) (next : ptr)
| Data (message : ptr) (message_size : Z)
| Buf (bytes : list byte).

Definition sizeof (o : object) : Z :=
  match o with
  | Node _ _ => 16
  | Data _ _ => 16
  | Buf bytes => Z.of_nat (length bytes)
  end.

(** Bytes held by the live allocations. *)
Definition heap_bytes (h : gmap ptr object) : Z :=
  map_fold (λ _ o acc, sizeof o + acc) 0 h.

(** [struct message_queue]: the queue head the global [queuep] points to. *)
Record message_queue : Type := MessageQueue {
  head : ptr;
  rear : ptr;
  messages_size : Z
}.

(** The machine state: the heap and the two mutable globals.  [queuep] is
    [None] for a NULL pointer. *)
Record state : Type := State {
  heap : gmap ptr object;
  queuep : option message_queue;
  MAX_MESSAGES_SIZE : Z
}.

(** ** The monad of kernel computations *)

Inductive result (A : Type) : Type :=
| Ret (v : A) (s : state)   (* the call returned [v] *)
| Blocked                   (* the caller sleeps in [wait_event] *)
| Oops.                     (* invalid dereference *)
Arguments Ret {A} v s.
Arguments Blocked {A}.
Arguments Oops {A}.

Definition M (A : Type) : Type := state → result A.

Definition ret {A} (v : A) : M A := λ s, Ret v s.
Definition bind {A B} (c : M A) (k : A → M B) : M B :=
  λ s, match c s with
       | Ret v s' => k v s'
       | Blocked => Blocked
       | Oops => Oops
       end.
Definition block {A} : M A := λ _, Blocked.
Definition oops {A} : M A := λ _, Oops.
Definition get_heap : M (gmap ptr object) := λ s, Ret (heap s) s.
Definition put_heap (h : gmap ptr object) : M unit :=
  λ s, Ret tt (State h (queuep s) (MAX_MESSAGES_SIZE s)).
Definition get_queuep : M (option message_queue) := λ s, Ret (queuep s) s.
Definition put_queue (q : message_queue) : M unit :=
  λ s, Ret tt (State (heap s) (Some q) (MAX_MESSAGES_SIZE s)).
Definition get_MAX_MESSAGES_SIZE : M Z := λ s, Ret (MAX_MESSAGES_SIZE s) s.
Definition put_MAX_MESSAGES_SIZE (z : Z) : M unit :=
  λ s, Ret tt (State (heap s) (queuep s) z).

Declare Scope kernel_scope.
Delimit Scope kernel_scope with kernel.
Notation "x <- c ;; k" := (bind c (λ x, k))
  (at level 100, c at next level, k at level 200, right associativity)
  : kernel_scope.
Notation "c ;; k" := (bind c (λ _, k))
  (at level 100, k at level 200, right associativity) : kernel_scope.
Local Open Scope kernel_scope.

(** Dereferencing [queuep]: an oops when it is NULL. *)
Definition the_queue : M message_queue :=
  q <- get_queuep ;;
  match q with Some q => ret q | None => oops end.

(** *** Loads and stores, one per struct field *)

Definition load (p : ptr) : M object :=
  h <- get_heap ;;
  if ZERO_OR_NULL_PTR p then oops else
  match h !! p with Some o => ret o | None => oops end.

Definition load_data (p : ptr) : M ptr :=
  o <- load p ;; match o with Node d _ => ret d | _ => oops end.
Definition load_next (p : ptr) : M ptr :=
  o <- load p ;; match o with Node _ n => ret n | _ => oops end.
Definition load_message (p : ptr) : M ptr :=
  o <- load p ;; match o with Data m _ => ret m | _ => oops end.
Definition load_message_size (p : ptr) : M Z :=
  o <- load p ;; match o with Data _ z => ret z | _ => oops end.
Definition load_bytes (p : ptr) : M (list byte) :=
  o <- load p ;; match o with Buf b => ret b | _ => oops end.

Definition store (p : ptr) (o : object) : M unit :=
  h <- get_heap ;; put_heap (<[p := o]> h).

Definition store_data (p : ptr) (d : ptr) : M unit :=
  o <- load p ;; match o with Node _ n => store p (Node d n) | _ => oops end.
Definition store_next (p : ptr) (n : ptr) : M unit :=
  o <- load p ;; match o with Node d _ => store p (Node d n) | _ => oops end.
Definition store_message (p : ptr) (m : ptr) : M unit :=
  o <- load p ;; match o with Data _ z => store p (Data m z) | _ => oops end.
Definition store_message_size (p : ptr) (z : Z) : M unit :=
  o <- load p ;; match o with Data m _ => store p (Data m z) | _ => oops end.
Definition store_bytes (p : ptr) (b : list byte) : M unit :=
  o <- load p ;; match o with Buf _ => store p (Buf b) | _ => oops end.

(** *** kmalloc, kfree and memcpy

    [kmalloc] of 0 bytes returns [ZERO_SIZE_PTR]: nothing is allocated and
    the call cannot fail.  Any other request returns NULL on failure.
    Whether the kernel finds memory is not decided by the driver: the flag
    [ok] says so, one flag per call.  A request that does not fit in the
    64-bit address space next to the live allocations fails regardless.
    The address handed out is not live and lies above [ZERO_SIZE_PTR].
    The block comes back with unspecified contents: [shape] is the object
    it holds at first, and the caller takes its fields from what the
    allocator left there (see [gfp]). *)
Definition reserved : gset ptr := list_to_set (N.of_nat <$> seq 0 17).

Definition kmalloc (shape : object) (ok : bool) : M ptr :=
  if bool_decide (sizeof shape = 0) then ret ZERO_SIZE_PTR else
  h <- get_heap ;;
  if ok && bool_decide (heap_bytes h + sizeof shape < ULONG_MODULUS) then
    let p : ptr := fresh (reserved ∪ dom h) in
    put_heap (<[p := shape]> h) ;; ret p
  else ret NULL.

(** [kfree] returns at once when [ZERO_OR_NULL_PTR] holds of its argument. *)
Definition kfree (p : ptr) : M unit :=
  if ZERO_OR_NULL_PTR p then ret tt else
  h <- get_heap ;; put_heap (delete p h).

(** [memcpy(dst, src, n)] touches nothing when [n] is 0. *)
Definition memcpy (dst : ptr) (src : list byte) (n : Z) : M unit :=
  if bool_decide (n = 0) then ret tt
  else store_bytes dst (take (Z.to_nat n) src).

(** What the allocator does in one [enqueue] call, which the driver does
    not decide: which of the three requests it grants, and what the three
    blocks hold when they are handed out. *)
Record gfp : Type := Gfp {
  node_ok : bool;
  data_ok : bool;
  message_ok : bool;
  junk_data : ptr;
  junk_next : ptr;
  junk_message : ptr;
  junk_size : Z;
  junk_chars : nat → byte
}.

(** *** wait_event

    [wait_event(wq, cond)] returns at once when [cond] holds and puts the
    caller to sleep otherwise. *)
Definition wait_event (cond : M bool) : M unit :=
  b <- cond ;; if b then ret tt else block.

(** ** The queue (charDeviceDriverBlocking.c, lines 214-390) *)

(** The queue head lives outside the modelled heap, in [queuep]; [ok]
    says whether its allocation succeeds. *)
Definition initialise_queue (ok : bool) : M unit :=
  λ s, Ret tt (State (heap s)
                     (if ok then Some (MessageQueue NULL NULL 0) else None)
                     (MAX_MESSAGES_SIZE s)).

Definition enqueue (message : list byte) (message_size : Z) (g : gfp) : M Z :=
  q <- get_queuep ;;
  match q with
  | None => ret SUCCESS
  | Some _ =>
    tmp_node <- kmalloc (Node (junk_data g) (junk_next g)) (node_ok g) ;;
    if bool_decide (tmp_node = NULL) then ret (-1) else
    store_next tmp_node NULL ;;
    tmp_data <- kmalloc (Data (junk_message g) (junk_size g)) (data_ok g) ;;
    store_data tmp_node tmp_data ;;
    if bool_decide (tmp_data = NULL) then kfree tmp_node ;; ret (-1) else
    tmp_message <- kmalloc (Buf (junk_chars g <$> seq 0 (Z.to_nat message_size)))
                           (message_ok g) ;;
    store_message tmp_data tmp_message ;;
    if bool_decide (tmp_message = NULL)
    then kfree tmp_data ;; kfree tmp_node ;; ret (-1) else
    memcpy tmp_message message message_size ;;
    store_message_size tmp_data message_size ;;
    (* mutex_lock(&queue_lock) *)
    q <- the_queue ;;
    (if bool_decide (rear q = NULL)
     then put_queue (MessageQueue tmp_node tmp_node (messages_size q))
     else
       store_next (rear q) tmp_node ;;
       r <- load_next (rear q) ;;
       put_queue (MessageQueue (head q) r (messages_size q))) ;;
    q <- the_queue ;;
    d <- load_data (rear q) ;;
    z <- load_message_size d ;;
    put_queue (MessageQueue (head q) (rear q) (to_ulong (messages_size q + z))) ;;
    (* mutex_unlock(&queue_lock) *)
    ret SUCCESS
  end.

Definition dequeue : M ptr :=
  q <- get_queuep ;;
  match q with
  | None => ret NULL
  | Some q =>
    if bool_decide (head q = NULL) then ret NULL else
    (if bool_decide (head q = rear q)
     then r <- load_next (rear q) ;;
          put_queue (MessageQueue (head q) r (messages_size q))
     else ret tt) ;;
    q <- the_queue ;;
    let tmp_node := head q in
    n <- load_next (head q) ;;
    d <- load_data tmp_node ;;
    z <- load_message_size d ;;
    put_queue (MessageQueue n (rear q) (to_ulong (messages_size q - z))) ;;
    (* mutex_unlock(&queue_lock) *)
    tmp_data <- load_data tmp_node ;;
    kfree tmp_node ;;
    ret tmp_data
  end.

Definition is_queue_empty : M Z :=
  q <- get_queuep ;;
  match q with
  | None => ret (-1)
  | Some q => if bool_decide (messages_size q = 0) then ret 1 else ret 0
  end.

Definition is_space_in_queue (length : Z) : M Z :=
  q <- get_queuep ;;
  match q with
  | None => ret (-1)
  | Some q =>
    max <- get_MAX_MESSAGES_SIZE ;;
    if bool_decide (to_ulong (messages_size q + length) > max)
    then ret 0 else ret 1
  end.

(** ** The file operations (charDeviceDriverBlocking.c, lines 95-201) *)

(** User memory.  A read buffer is known by which of its bytes [put_user]
    can write; a write buffer by the byte [get_user] finds at each offset,
    [None] where the address is not readable. *)
Definition user_sink : Type := nat → bool.
Definition user_source : Type := nat → option byte.

(** The state of the copy loop of [device_read] when it ends. *)
Inductive copied : Type :=
| Copied (bytes_read : Z) (out : list byte)   (* the loop ran to its end *)
| Faulted (out : list byte)                   (* put_user failed *)
| Overrun.                                    (* read past the message *)

Definition put (c : byte) (r : copied) : copied :=
  match r with
  | Copied n out => Copied (n + 1) (c :: out)
  | Faulted out => Faulted (c :: out)
  | Overrun => Overrun
  end.

(** [while(tmp_length && *tmp_message)]: [i] is how far [buffer] has
    advanced, [tmp_message] what is left of the stored characters. *)
Fixpoint read_loop (buffer : user_sink) (i : nat) (tmp_length : nat)
    (tmp_message : list byte) : copied :=
  match tmp_length with
  | O => Copied 0 []
  | S tmp_length' =>
    match tmp_message with
    | [] => Overrun
    | c :: tmp_message' =>
      if Byte.eqb c x00 then Copied 0 []
      else if buffer i
           then put c (read_loop buffer (S i) tmp_length' tmp_message')
           else Faulted []
    end
  end.

(** A [device_read] call hands back its return value and the bytes it
    has put into the user's buffer. *)
Definition device_read (buffer : user_sink) (length : Z) : M (Z * list byte) :=
  wait_event (e <- is_queue_empty ;; ret (bool_decide (e = 0))) ;;
  tmp_data <- dequeue ;;
  (* wake_up(&write_wq) *)
  tmp_message <- load_message tmp_data ;;
  message_size <- load_message_size tmp_data ;;
  let tmp_length :=
    if bool_decide (message_size >= length)
    then to_ushort length else message_size in
  chars <- (if bool_decide (tmp_length = 0) then ret []
            else load_bytes tmp_message) ;;
  match read_loop buffer 0 (Z.to_nat tmp_length) chars with
  | Overrun => oops
  | Faulted out =>
    m <- load_message tmp_data ;; kfree m ;; kfree tmp_data ;;
    ret (- EFAULT, out)
  | Copied bytes_read out =>
    m <- load_message tmp_data ;; kfree m ;; kfree tmp_data ;;
    ret (bytes_read, out)
  end.

(** [for(i=0; i < length; i++) get_user(tmp_message[i], buffer+i)] *)
Fixpoint get_user_loop (buffer : user_source) (i : nat) (n : nat)
    : option (list byte) :=
  match n with
  | O => Some []
  | S n' =>
    match buffer i with
    | None => None
    | Some c => cons c <$> get_user_loop buffer (S i) n'
    end
  end.

(** Lines 147-154 of [device_write]: the size check and the wait for room.
    [Some e] is an early return of [e]. *)
Definition device_write_wait (length : Z) : M (option Z) :=
  if bool_decide (length > MAX_MESSAGE_SIZE) then ret (Some (- EINVAL)) else
  wait_event (r <- is_space_in_queue (to_ushort length) ;;
              ret (bool_decide (r = 1))) ;;
  ret None.

(** Lines 156-179 of [device_write]: copy from user space and enqueue. *)
Definition device_write_send (buffer : user_source) (length : Z) (g : gfp)
    : M Z :=
  match get_user_loop buffer 0 (Z.to_nat length) with
  | None => ret (- EFAULT)
  | Some tmp_message =>
    r <- enqueue tmp_message (to_ushort length) g ;;
    if bool_decide (r ≠ SUCCESS) then ret (- EFAULT)
    else (* wake_up(&read_wq) *) ret length
  end.

Definition device_write (buffer : user_source) (length : Z) (g : gfp) : M Z :=
  e <- device_write_wait length ;;
  match e with
  | Some e => ret e
  | None => device_write_send buffer length g
  end.

Definition device_ioctl (ioctl_num ioctl_param : Z) : M Z :=
  if bool_decide (ioctl_num = CHANGE_MAX_MESSAGES_SIZE) then
    (* mutex_lock(&queue_lock) *)
    q <- the_queue ;;
    if bool_decide (ioctl_param > messages_size q) then
      put_MAX_MESSAGES_SIZE ioctl_param ;;
      ret SUCCESS
    else ret (- EINVAL)
  else ret (- EINVAL).

(** ** Loading the module (lines 39-67) *)

(** Before [char_device_driver_init]: nothing allocated, [queuep] NULL and
    the limit of the header file. *)
Definition unloaded : state := State ∅ None MAX_MESSAGES_SIZE_DEFAULT.

(** The registration of the device is left out; what remains is the
    creation of the queue and the error return when that fails. *)
Definition char_device_driver_init (ok : bool) : M Z :=
  initialise_queue ok ;;
  q <- get_queuep ;;
  match q with
  | None => ret (- EFAULT)
  | Some _ => ret SUCCESS
  end.

(** The state a successful [char_device_driver_init] leaves behind. *)
Definition loaded : state :=
  match char_device_driver_init true unloaded with
  | Ret _ s => s
  | _ => unloaded
  end.

(** User buffers for examples: a source holding exactly the bytes of a
    list, and a sink of a given capacity. *)
Definition source_of (l : list byte) : user_source := λ i, l !! i.
Definition sink_of (n : nat) : user_sink := λ i, bool_decide (i < n)%nat.
(** Every request granted, the blocks zeroed; and no memory for the
    characters, the blocks full of other things. *)
Definition all_ok : gfp := Gfp true true true NULL NULL NULL 0 (λ _, x00).
Definition no_characters : gfp :=
  Gfp true true false 5%N 6%N 7%N 8 (λ _, xff).

(** ** What the heap holds: the list behind [queuep] *)

(** One queued message: the addresses of its node, of its descriptor and of
    its character array, and the characters.  The character array of a
    message of no bytes is [ZERO_SIZE_PTR]. *)
Record cell : Type := Cell {
  c_node : ptr;
  c_data : ptr;
  c_buf : ptr;
  c_bytes : list byte
}.

Definition first_node (cs : list cell) : ptr :=
  match cs with [] => NULL | c :: _ => c_node c end.

Fixpoint last_node (cs : list cell) : ptr :=
  match cs with
  | [] => NULL
  | [c] => c_node c
  | _ :: cs' => last_node cs'
  end.

(** The character array of [c] in [h]: allocated and holding the
    characters, or [ZERO_SIZE_PTR] when there are none. *)
Definition stored (h : gmap ptr object) (c : cell) : Prop :=
  match c_bytes c with
  | [] => c_buf c = ZERO_SIZE_PTR
  | _ :: _ => h !! c_buf c = Some (Buf (c_bytes c))
  end.

(** [chain h cs]: in [h] the cells of [cs] are linked in this order through
    their [next] fields, and the last [next] is NULL. *)
Fixpoint chain (h : gmap ptr object) (cs : list cell) : Prop :=
  match cs with
  | [] => True
  | c :: cs' =>
    h !! c_node c = Some (Node (c_data c) (first_node cs')) ∧
    h !! c_data c = Some (Data (c_buf c) (Z.of_nat (length (c_bytes c)))) ∧
    stored h c ∧
    chain h cs'
  end.

(** The allocations of a cell: two for a message of no bytes, else three. *)
Definition live_buffer (c : cell) : list ptr :=
  match c_bytes c with [] => [] | _ :: _ => [c_buf c] end.

Definition addresses (cs : list cell) : list ptr :=
  c ← cs; c_node c :: c_data c :: live_buffer c.

(** Sum of the stored lengths. *)
Fixpoint resident (cs : list cell) : Z :=
  match cs with
  | [] => 0
  | c :: cs' => Z.of_nat (length (c_bytes c)) + resident cs'
  end.

(** [queued s cs]: the queue of [s] holds exactly the cells [cs], oldest
    first.  [head] is the first node, [rear] the last, and the byte counter
    is the sum of the stored lengths.  The allocations of the cells are
    distinct addresses above [ZERO_SIZE_PTR], no message is longer than
    4096 bytes, and the heap is one [kmalloc] can have built: it fits in
    the address space and holds nothing at an address up to
    [ZERO_SIZE_PTR]. *)
Record queued (s : state) (cs : list cell) : Prop := Queued {
  queued_queuep :
    queuep s = Some (MessageQueue (first_node cs) (last_node cs) (resident cs));
  queued_chain : chain (heap s) cs;
  queued_NoDup : NoDup (addresses cs);
  queued_live : Forall (λ p, ZERO_OR_NULL_PTR p = false) (addresses cs);
  queued_sizes :
    Forall (λ c, Z.of_nat (length (c_bytes c)) ≤ MAX_MESSAGE_SIZE) cs;
  queued_heap : heap_bytes (heap s) < ULONG_MODULUS;
  queued_low : ∀ p, ZERO_OR_NULL_PTR p = true → heap s !! p = None
}.

(** ** Running several calls in a row *)

(** One writer thread of the interleaving model: it has not passed
    [wait_event] yet, it has passed it and is about to copy and enqueue, or
    it has returned. *)
Inductive writer : Type :=
| Waiting (buffer : user_source) (length : Z) (g : gfp)
| Copying (buffer : user_source) (length : Z) (g : gfp)
| Returned (r : Z).

(** One scheduling step of a writer.  Each step is a piece of
    [device_write] during which the writer is not preempted; a writer whose
    [wait_event] condition is false stays where it is. *)
Definition writer_step (w : writer) (s : state) : writer * state :=
  match w with
  | Waiting buffer length g =>
    match device_write_wait length s with
    | Ret (Some e) s' => (Returned e, s')
    | Ret None s' => (Copying buffer length g, s')
    | _ => (w, s)
    end
  | Copying buffer length g =>
    match device_write_send buffer length g s with
    | Ret r s' => (Returned r, s')
    | _ => (w, s)
    end
  | Returned r => (w, s)
  end.

(** Run the writers [ws] from [s], at each step the one the schedule
    names. *)
Fixpoint interleave (schedule : list nat) (ws : list writer) (s : state)
    : list writer * state :=
  match schedule with
  | [] => (ws, s)
  | i :: schedule' =>
    match ws !! i with
    | None => interleave schedule' ws s
    | Some w =>
      let '(w', s') := writer_step w s in
      interleave schedule' (<[i := w']> ws) s'
    end
  end.

(** ** Conditions and runs the statements below speak about *)

(** All three allocations of an [enqueue] of [message_size] bytes go
    through: the kernel grants each, and a node, a descriptor and the
    characters fit next to what is live.  The request for the characters
    of a message of no bytes is always granted. *)
Definition allocations_succeed (g : gfp) (s : state) (message_size : Z)
    : Prop :=
  node_ok g = true ∧ data_ok g = true ∧
  (message_size = 0 ∨ message_ok g = true) ∧
  heap_bytes (heap s) + 16 + 16 + message_size < ULONG_MODULUS.

(** The bytes of [l] in front of its first zero byte. *)
Fixpoint before_zero (l : list byte) : list byte :=
  match l with
  | [] => []
  | c :: l' => if Byte.eqb c x00 then [] else c :: before_zero l'
  end.

(** The state a [device_read] leaves when the queue held [c :: cs]: the
    objects of [c] are gone and the queue head describes [cs]. *)
Definition after_read (s : state) (c : cell) (cs : list cell) : state :=
  State (delete (c_data c) (delete (c_buf c) (delete (c_node c) (heap s))))
        (Some (MessageQueue (first_node cs) (last_node cs) (resident cs)))
        (MAX_MESSAGES_SIZE s).

(** The calls user space can make on the open device, with arguments of
    the C types: [size_t] and [unsigned long] are 64 bits wide,
    [unsigned int] 32. *)
Inductive operation : Type :=
| Write (buffer : user_source) (length : Z) (g : gfp)
| Read (buffer : user_sink) (length : Z)
| Ioctl (ioctl_num : Z) (ioctl_param : Z).

Definition in_range (op : operation) : Prop :=
  match op with
  | Write _ length _ => 0 ≤ length < ULONG_MODULUS
  | Read _ length => 0 ≤ length < ULONG_MODULUS
  | Ioctl ioctl_num ioctl_param =>
    0 ≤ ioctl_num < 2 ^ 32 ∧ 0 ≤ ioctl_param < ULONG_MODULUS
  end.

(** The state after a call that returned, whatever it returned; [None]
    for a call that sleeps. *)
Definition perform (op : operation) (s : state) : option state :=
  match op with
  | Write buffer length g =>
    match device_write buffer length g s with Ret _ s' => Some s' | _ => None end
  | Read buffer length =>
    match device_read buffer length s with Ret _ s' => Some s' | _ => None end
  | Ioctl ioctl_num ioctl_param =>
    match device_ioctl ioctl_num ioctl_param s with
    | Ret _ s' => Some s'
    | _ => None
    end
  end.

(** The states the loaded driver can be in between two calls, when calls
    run one after the other. *)
Inductive reachable : state → Prop :=
| reachable_loaded : reachable loaded
| reachable_perform s op s' :
    reachable s → in_range op → perform op s = Some s' → reachable s'.

(** Writing the messages of a list, one [device_write] each, a user
    buffer holding exactly the message; the return values in order. *)
Fixpoint write_all (ws : list (list byte * gfp)) : M (list Z) :=
  match ws with
  | [] => ret []
  | (m, g) :: ws' =>
    r <- device_write (source_of m) (Z.of_nat (length m)) g ;;
    rs <- write_all ws' ;;
    ret (r :: rs)
  end.

(** One [device_read] per requested length, into a buffer that is
    writable throughout; the return values and delivered bytes in order. *)
Fixpoint read_all (lengths : list Z) : M (list (Z * list byte)) :=
  match lengths with
  | [] => ret []
  | length :: lengths' =>
    r <- device_read (λ _, true) length ;;
    rs <- read_all lengths' ;;
    ret (r :: rs)
  end.

(** The same reads for as long as they return: the results of the reads
    that returned, and the state in which the next read did not return or
    in which the lengths were used up. *)
Fixpoint read_while (lengths : list Z) (s : state)
    : list (Z * list byte) * state :=
  match lengths with
  | [] => ([], s)
  | length :: lengths' =>
    match device_read (λ _, true) length s with
    | Ret r s' => let '(rs, s2) := read_while lengths' s' in (r :: rs, s2)
    | _ => ([], s)
    end
  end.

(** [settled s cs]: the queue of [s] holds [cs] and is within the limit. *)
Definition settled (s : state) (cs : list cell) : Prop :=
  queued s cs ∧ resident cs ≤ MAX_MESSAGES_SIZE s.

(** What a [device_read] of [length] bytes hands over from the cell [c]
    when the user's buffer is writable. *)
Definition delivered (c : cell) (length : Z) : list byte :=
  before_zero
    (take (Z.to_nat (Z.min length (Z.of_nat (List.length (c_bytes c)))))
          (c_bytes c)).

(** The same for a message given by its characters. *)
Definition received (m : list byte) (length : Z) : list byte :=
  before_zero (take (Z.to_nat (Z.min length (Z.of_nat (List.length m)))) m).

(** First in, first out: the oldest message is handed over first, one
    message per read, for as long as a byte is queued. *)
Fixpoint fifo (ms : list (list byte)) (lengths : list Z)
    : list (Z * list byte) :=
  match ms, lengths with
  | m :: ms', length :: lengths' =>
    if bool_decide (concat (m :: ms') = []) then []
    else (Z.of_nat (List.length (received m length)), received m length)
         :: fifo ms' lengths'
  | _, _ => []
  end.

(** ** States and inputs for the examples *)

Definition after {A} (r : result A) : state :=
  match r with Ret _ s => s | _ => loaded end.

Definition value {A} (r : result A) : option A :=
  match r with Ret v _ => Some v | _ => None end.

Definition two_letters : list (list byte * gfp) :=
  [([x61], all_ok); ([x62; x63], all_ok)].
Definition two_letters_sent : state := after (write_all two_letters loaded).

(** 100 bytes queued. *)
Definition hundred_queued : state :=
  after (device_write (source_of (replicate 100 x61)) 100 all_ok loaded).

(** One message of 10 bytes queued. *)
Definition ten_bytes : list byte :=
  [x30; x31; x32; x33; x34; x35; x36; x37; x38; x39].
Definition ten_cell : cell := Cell 17%N 18%N 19%N ten_bytes.
Definition ten_queued : state :=
  after (device_write (source_of ten_bytes) 10 all_ok loaded).

(** One message with a zero byte in third place queued. *)
Definition zero_inside : list byte := [x61; x62; x00; x63].
Definition zero_cell : cell := Cell 17%N 18%N 19%N zero_inside.
Definition zero_queued : state :=
  after (device_write (source_of zero_inside) 4 all_ok loaded).

(** One message of no bytes written to the empty queue. *)
Definition empty_sent : state :=
  after (device_write (source_of []) 0 all_ok loaded).

(** A message of one byte written behind it. *)
Definition letter_behind_empty : state :=
  after (device_write (source_of [x61]) 1 all_ok empty_sent).

(** Three messages, the second of no bytes, the third with a zero byte. *)
Definition three_messages : list (list byte * gfp) :=
  [([x61], all_ok); ([], all_ok); ([x62; x63; x00; x64], all_ok)].

(** The limit lowered to 4096 bytes, and two writers of 4096 bytes each. *)
Definition tight : state := after (device_ioctl 0 4096 loaded).
Definition page : list byte := replicate 4096 x61.
Definition two_writers : list writer :=
  [Waiting (source_of page) 4096 all_ok; Waiting (source_of page) 4096 all_ok].

(** ** Unloading the module (lines 72-79 and 228-258) *)

(** The queue head is no more: [kfree(queuep)] in [release_queue], and
    [queuep = NULL] in [char_device_driver_exit]. *)
Definition free_queue : M unit :=
  λ s, Ret tt (State (heap s) None (MAX_MESSAGES_SIZE s)).

(** One iteration of the loop of [release_queue]; the value is the new
    [iterator_node]. *)
Definition release_iteration (tmp_node iterator_node : ptr) : M ptr :=
  iterator_node <- load_next iterator_node ;;
  d <- load_data tmp_node ;;
  (if bool_decide (d ≠ NULL) then
     d <- load_data tmp_node ;;
     m <- load_message d ;;
     (if bool_decide (m ≠ NULL) then
        d <- load_data tmp_node ;;
        m <- load_message d ;;
        kfree m
      else ret tt) ;;
     d <- load_data tmp_node ;;
     kfree d
   else ret tt) ;;
  kfree tmp_node ;;
  ret iterator_node.

(** [while(iterator_node != NULL)].  [fuel] bounds the number of
    iterations; the result is [false] when the bound is reached with
    nodes left. *)
Fixpoint release_loop (fuel : nat) (tmp_node iterator_node : ptr) : M bool :=
  if bool_decide (iterator_node = NULL) then ret true else
  match fuel with
  | O => ret false
  | S fuel' =>
    iterator_node <- release_iteration tmp_node iterator_node ;;
    release_loop fuel' iterator_node iterator_node
  end.

Definition release_queue (fuel : nat) : M bool :=
  q <- get_queuep ;;
  match q with
  | None => ret true
  | Some q =>
    finished <- release_loop fuel (head q) (head q) ;;
    if finished : bool then free_queue ;; ret true else ret false
  end.

Definition char_device_driver_exit (fuel : nat) : M bool :=
  finished <- release_queue fuel ;;
  free_queue ;;
  ret finished.

(** ** device_read in two pieces, and threads of all three kinds *)

(** Line 104 of [device_read]: the wait for a byte. *)
Definition device_read_wait : M unit :=
  wait_event (e <- is_queue_empty ;; ret (bool_decide (e = 0))).

(** Lines 106-139 of [device_read]: dequeue, copy to user space, free. *)
Definition device_read_take (buffer : user_sink) (length : Z)
    : M (Z * list byte) :=
  tmp_data <- dequeue ;;
  tmp_message <- load_message tmp_data ;;
  message_size <- load_message_size tmp_data ;;
  let tmp_length :=
    if bool_decide (message_size >= length)
    then to_ushort length else message_size in
  chars <- (if bool_decide (tmp_length = 0) then ret []
            else load_bytes tmp_message) ;;
  match read_loop buffer 0 (Z.to_nat tmp_length) chars with
  | Overrun => oops
  | Faulted out =>
    m <- load_message tmp_data ;; kfree m ;; kfree tmp_data ;;
    ret (- EFAULT, out)
  | Copied bytes_read out =>
    m <- load_message tmp_data ;; kfree m ;; kfree tmp_data ;;
    ret (bytes_read, out)
  end.

(** A thread inside one of the file operations.  Writers and readers are
    either in front of their [wait_event] or behind it; a resize is a
    single critical section.  [Exited r] is a call that returned [r],
    [Crashed] one that dereferenced an invalid pointer. *)
Inductive thread : Type :=
| WriterWaits (buffer : user_source) (length : Z) (g : gfp)
| WriterCopies (buffer : user_source) (length : Z) (g : gfp)
| ReaderWaits (buffer : user_sink) (length : Z)
| ReaderTakes (buffer : user_sink) (length : Z)
| Resizer (ioctl_num : Z) (ioctl_param : Z)
| Exited (r : Z)
| Crashed.

(** One scheduling step.  A thread whose wait condition is false stays
    where it is; the state after a crash is taken to be the state before
    the step. *)
Definition thread_step (t : thread) (s : state) : thread * state :=
  match t with
  | WriterWaits buffer length g =>
    match device_write_wait length s with
    | Ret (Some e) s' => (Exited e, s')
    | Ret None s' => (WriterCopies buffer length g, s')
    | Blocked => (t, s)
    | Oops => (Crashed, s)
    end
  | WriterCopies buffer length g =>
    match device_write_send buffer length g s with
    | Ret r s' => (Exited r, s')
    | Blocked => (t, s)
    | Oops => (Crashed, s)
    end
  | ReaderWaits buffer length =>
    match device_read_wait s with
    | Ret _ s' => (ReaderTakes buffer length, s')
    | Blocked => (t, s)
    | Oops => (Crashed, s)
    end
  | ReaderTakes buffer length =>
    match device_read_take buffer length s with
    | Ret r s' => (Exited r.1, s')
    | Blocked => (t, s)
    | Oops => (Crashed, s)
    end
  | Resizer ioctl_num ioctl_param =>
    match device_ioctl ioctl_num ioctl_param s with
    | Ret r s' => (Exited r, s')
    | Blocked => (t, s)
    | Oops => (Crashed, s)
    end
  | Exited _ | Crashed => (t, s)
  end.

Fixpoint run_threads (schedule : list nat) (ts : list thread) (s : state)
    : list thread * state :=
  match schedule with
  | [] => (ts, s)
  | i :: schedule' =>
    match ts !! i with
    | None => run_threads schedule' ts s
    | Some t =>
      let '(t', s') := thread_step t s in
      run_threads schedule' (<[i := t']> ts) s'
    end
  end.

(** A resize to 8 bytes and two writers of 5 bytes each on the loaded
    driver; the resize, then both writers past their wait, then both
    enqueue. *)
Definition five : list byte := [x61; x62; x63; x64; x65].
Definition squeeze : list thread :=
  [Resizer CHANGE_MAX_MESSAGES_SIZE 8;
   WriterWaits (source_of five) 5 all_ok;
   WriterWaits (source_of five) 5 all_ok].
Definition overrun : list thread * state :=
  run_threads [0; 1; 2; 1; 2]%nat squeeze loaded.

(** [tidy s cs]: the queue of [s] holds [cs], and the nodes, descriptors
    and character arrays of [cs] are all that is allocated. *)
Definition tidy (s : state) (cs : list cell) : Prop :=
  queued s cs ∧ dom (heap s) = list_to_set (addresses cs).

(** A call that ends in an invalid dereference. *)
Definition crashes (op : operation) (s : state) : Prop :=
  match op with
  | Write buffer length g => device_write buffer length g s = Oops
  | Read buffer length => device_read buffer length s = Oops
  | Ioctl ioctl_num ioctl_param => device_ioctl ioctl_num ioctl_param s = Oops
  end.

(** ** Evaluation of the monadic code *)

Arguments bind {A B} c k s /.
Arguments ret {A} v s /.
Arguments block {A} s /.
Arguments oops {A} s /.
Arguments get_heap s /.
Arguments put_heap h s /.
Arguments get_queuep s /.
Arguments put_queue q s /.
Arguments get_MAX_MESSAGES_SIZE s /.
Arguments put_MAX_MESSAGES_SIZE z s /.
Arguments the_queue s /.
Arguments load p s /.
Arguments store p o s /.
Arguments load_data p s /.
Arguments load_next p s /.
Arguments load_message p s /.
Arguments load_message_size p s /.
Arguments load_bytes p s /.
Arguments store_data p d s /.
Arguments store_next p n s /.
Arguments store_message p m s /.
Arguments store_message_size p z s /.
Arguments store_bytes p b s /.
Arguments kfree p s /.
Arguments memcpy dst src n s /.
Arguments wait_event cond s /.
Arguments ZERO_OR_NULL_PTR : simpl never.
Arguments kmalloc : simpl never.
Arguments to_ulong : simpl never.
Arguments to_ushort : simpl never.
Arguments heap_bytes : simpl never.
Arguments sizeof : simpl never.
Arguments resident : simpl never.

(** ** Machine arithmetic *)

Lemma to_ulong_small z : 0 ≤ z < ULONG_MODULUS → to_ulong z = z.
Proof. intros Hz. unfold to_ulong. by apply Z.mod_small. Qed.

Lemma to_ushort_small z : 0 ≤ z ≤ MAX_MESSAGE_SIZE → to_ushort z = z.
Proof.
  intros Hz. unfold to_ushort. apply Z.mod_small.
  unfold MAX_MESSAGE_SIZE, USHRT_MODULUS in *. lia.
Qed.

(** ** The byte count of the heap *)

Lemma sizeof_nonneg o : 0 ≤ sizeof o.
Proof. destruct o; unfold sizeof; lia. Qed.

Lemma heap_bytes_empty : heap_bytes ∅ = 0.
Proof. apply map_fold_empty. Qed.

Lemma heap_bytes_insert_fresh (h : gmap ptr object) p o :
  h !! p = None → heap_bytes (<[p := o]> h) = sizeof o + heap_bytes h.
Proof.
  intros Hp. unfold heap_bytes.
  rewrite map_fold_insert_L; [done | intros; lia | done].
Qed.

Lemma heap_bytes_delete (h : gmap ptr object) p o :
  h !! p = Some o → heap_bytes h = sizeof o + heap_bytes (delete p h).
Proof.
  intros Hp. unfold heap_bytes.
  rewrite (map_fold_delete_L _ _ p o h); [done | intros; lia | done].
Qed.

Lemma heap_bytes_insert (h : gmap ptr object) p o o' :
  h !! p = Some o' →
  heap_bytes (<[p := o]> h) = heap_bytes h - sizeof o' + sizeof o.
Proof.
  intros Hp. rewrite <- insert_delete_eq.
  rewrite heap_bytes_insert_fresh by apply lookup_delete_eq.
  rewrite (heap_bytes_delete h p o' Hp). lia.
Qed.

Lemma heap_bytes_nonneg (h : gmap ptr object) : 0 ≤ heap_bytes h.
Proof.
  unfold heap_bytes. apply (map_fold_weak_ind (λ r _, 0 ≤ r)); [lia|].
  intros i x m r _ Hr. pose proof (sizeof_nonneg x). lia.
Qed.

Lemma heap_bytes_delete_le (h : gmap ptr object) p :
  heap_bytes (delete p h) ≤ heap_bytes h.
Proof.
  destruct (h !! p) as [o|] eqn:Hp.
  - rewrite (heap_bytes_delete h p o Hp). pose proof (sizeof_nonneg o). lia.
  - by rewrite delete_id.
Qed.

(** ** kmalloc *)

Lemma ZERO_OR_NULL_PTR_NULL : ZERO_OR_NULL_PTR NULL = true.
Proof. reflexivity. Qed.

Lemma ZERO_OR_NULL_PTR_ZERO_SIZE_PTR : ZERO_OR_NULL_PTR ZERO_SIZE_PTR = true.
Proof. reflexivity. Qed.

Lemma live_not_NULL p : ZERO_OR_NULL_PTR p = false → p ≠ NULL.
Proof. by intros Hp ->. Qed.

Lemma reserved_low p : ZERO_OR_NULL_PTR p = true → p ∈ reserved.
Proof.
  unfold ZERO_OR_NULL_PTR, ZERO_SIZE_PTR, reserved.
  intros Hp%bool_decide_eq_true.
  apply elem_of_list_to_set, list_elem_of_fmap. exists (N.to_nat p).
  split; [by rewrite N2Nat.id|]. apply elem_of_seq. lia.
Qed.

(** A request of 0 bytes changes nothing and cannot fail. *)
Lemma kmalloc_zero shape ok s :
  sizeof shape = 0 → kmalloc shape ok s = Ret ZERO_SIZE_PTR s.
Proof. intros Hz. unfold kmalloc. by rewrite bool_decide_eq_true_2. Qed.

(** Any other request either fails and changes nothing, or hands out an
    address that was free, lies above [ZERO_SIZE_PTR], and fits. *)
Lemma kmalloc_cases shape ok h q max :
  sizeof shape ≠ 0 →
  ((ok = false ∨ ¬ heap_bytes h + sizeof shape < ULONG_MODULUS) ∧
   kmalloc shape ok (State h q max) = Ret NULL (State h q max)) ∨
  ∃ p, p ≠ NULL ∧ ZERO_OR_NULL_PTR p = false ∧ h !! p = None ∧ ok = true ∧
       heap_bytes h + sizeof shape < ULONG_MODULUS ∧
       kmalloc shape ok (State h q max) = Ret p (State (<[p := shape]> h) q max).
Proof.
  intros Hsize. unfold kmalloc. rewrite bool_decide_eq_false_2 by done. cbn.
  destruct ok; cbn; [|left; by auto].
  case_bool_decide as Hfit; cbn; [|left; by auto].
  right. exists (fresh (reserved ∪ dom h)).
  pose proof (is_fresh (reserved ∪ dom h)) as Hfresh.
  assert (Hlow : ZERO_OR_NULL_PTR (fresh (reserved ∪ dom h)) = false).
  { destruct (ZERO_OR_NULL_PTR _) eqn:Hp; [|done].
    destruct Hfresh. apply elem_of_union_l. by apply reserved_low. }
  split_and!; try done.
  - by apply live_not_NULL.
  - apply not_elem_of_dom. intros Hin. apply Hfresh. by apply elem_of_union_r.
Qed.


(** ** Chains *)

(** Membership in a list given by its first elements. *)
Ltac in_cons := rewrite ?elem_of_cons; tauto.

Lemma last_node_cons c c' cs : last_node (c :: c' :: cs) = last_node (c' :: cs).
Proof. reflexivity. Qed.

Lemma last_node_snoc cs c : last_node (cs ++ [c]) = c_node c.
Proof.
  induction cs as [|c0 cs IH]; [done|].
  destruct cs as [|c1 cs]; [done|]. exact IH.
Qed.

Lemma first_node_snoc cs c :
  first_node (cs ++ [c]) = if cs is [] then c_node c else first_node cs.
Proof. by destruct cs. Qed.

Lemma resident_nil : resident [] = 0.
Proof. reflexivity. Qed.

Lemma resident_cons c cs :
  resident (c :: cs) = Z.of_nat (length (c_bytes c)) + resident cs.
Proof. reflexivity. Qed.

Lemma resident_snoc cs c :
  resident (cs ++ [c]) = resident cs + Z.of_nat (length (c_bytes c)).
Proof.
  induction cs as [|c0 cs IH]; cbn [app];
    rewrite ?resident_cons, ?resident_nil; lia.
Qed.

Lemma resident_nonneg cs : 0 ≤ resident cs.
Proof. induction cs; rewrite ?resident_cons, ?resident_nil; lia. Qed.

Lemma elem_of_live_buffer p c :
  p ∈ live_buffer c ↔ c_bytes c ≠ [] ∧ p = c_buf c.
Proof.
  unfold live_buffer. destruct (c_bytes c).
  - rewrite elem_of_nil. tauto.
  - rewrite list_elem_of_singleton. split; [done|tauto].
Qed.

Lemma addresses_cons c cs :
  addresses (c :: cs) = c_node c :: c_data c :: live_buffer c ++ addresses cs.
Proof. reflexivity. Qed.

Lemma addresses_snoc cs c :
  addresses (cs ++ [c]) = addresses cs ++ c_node c :: c_data c :: live_buffer c.
Proof. unfold addresses. rewrite bind_app. cbn. by rewrite app_nil_r. Qed.

Lemma addresses_singleton c :
  addresses [c] = c_node c :: c_data c :: live_buffer c.
Proof. unfold addresses. cbn. by rewrite app_nil_r. Qed.

Lemma elem_of_addresses_cons p c cs :
  p ∈ addresses (c :: cs) ↔
  p = c_node c ∨ p = c_data c ∨ (c_bytes c ≠ [] ∧ p = c_buf c) ∨ p ∈ addresses cs.
Proof.
  by rewrite addresses_cons, !elem_of_cons, elem_of_app, elem_of_live_buffer.
Qed.

(** The addresses of the first cell differ from one another and from the
    addresses of the cells behind it. *)
Lemma NoDup_addresses_cons c cs :
  NoDup (addresses (c :: cs)) →
  c_node c ≠ c_data c ∧
  (c_bytes c ≠ [] → c_buf c ≠ c_node c ∧ c_buf c ≠ c_data c ∧
                    c_buf c ∉ addresses cs) ∧
  (c_node c ∉ addresses cs) ∧ (c_data c ∉ addresses cs) ∧
  NoDup (addresses cs).
Proof.
  rewrite addresses_cons. intros Hnd.
  apply NoDup_cons in Hnd as [Hn Hnd]. apply NoDup_cons in Hnd as [Hd Hnd].
  apply NoDup_app in Hnd as (_ & Hb & Hnd).
  rewrite elem_of_cons, elem_of_app, elem_of_live_buffer in Hn.
  rewrite elem_of_app, elem_of_live_buffer in Hd.
  split_and!; try tauto.
  intros Hne. split_and!.
  - intros Heq. apply Hn. right. left. by rewrite Heq.
  - intros Heq. apply Hd. left. by rewrite Heq.
  - apply Hb. by apply elem_of_live_buffer.
Qed.

Lemma Forall_addresses_cons (P : ptr → Prop) c cs :
  Forall P (addresses (c :: cs)) →
  P (c_node c) ∧ P (c_data c) ∧ (c_bytes c ≠ [] → P (c_buf c)) ∧
  Forall P (addresses cs).
Proof.
  rewrite addresses_cons. intros Hall.
  apply Forall_cons in Hall as [Hn Hall]. apply Forall_cons in Hall as [Hd Hall].
  apply Forall_app in Hall as [Hb Hall]. split_and!; try done.
  intros Hne. rewrite Forall_forall in Hb. by apply Hb, elem_of_live_buffer.
Qed.

Lemma last_node_addresses cs : cs ≠ [] → last_node cs ∈ addresses cs.
Proof.
  induction cs as [|c cs IH]; [done|]. intros _.
  apply elem_of_addresses_cons. destruct cs as [|c' cs].
  - by left.
  - rewrite last_node_cons. do 3 right. by apply IH.
Qed.

Lemma chain_lookup h cs p : chain h cs → p ∈ addresses cs → is_Some (h !! p).
Proof.
  induction cs as [|c cs IH]; [by intros _ ?%elem_of_nil|].
  intros (Hn & Hd & Hb & Hcs). rewrite elem_of_addresses_cons.
  intros [->|[->|[[Hne ->]|Hp]]]; eauto.
  unfold stored in Hb. destruct (c_bytes c); [done|eauto].
Qed.

Lemma stored_frame h h' c :
  stored h c → (c_bytes c ≠ [] → h' !! c_buf c = h !! c_buf c) → stored h' c.
Proof.
  unfold stored. destruct (c_bytes c); [done|].
  intros Hb Hsame. by rewrite Hsame.
Qed.

(** A chain only depends on the heap at its own addresses. *)
Lemma chain_frame h h' cs :
  chain h cs → (∀ p, p ∈ addresses cs → h' !! p = h !! p) → chain h' cs.
Proof.
  induction cs as [|c cs IH]; [done|].
  intros (Hn & Hd & Hb & Hcs) Hsame. cbn [chain].
  rewrite !Hsame by (apply elem_of_addresses_cons; tauto). split_and!; try done.
  - apply (stored_frame h); [done|]. intros Hne. apply Hsame.
    apply elem_of_addresses_cons. tauto.
  - apply IH; [done|]. intros p Hp. apply Hsame.
    apply elem_of_addresses_cons. tauto.
Qed.

(** Linking a new cell behind the last one. *)
Lemma chain_snoc h h' cs c :
  chain h cs → NoDup (addresses cs) →
  (∀ p, p ∈ addresses cs → p ≠ last_node cs → h' !! p = h !! p) →
  (∀ d n, cs ≠ [] → h !! last_node cs = Some (Node d n) →
          h' !! last_node cs = Some (Node d (c_node c))) →
  chain h' [c] →
  chain h' (cs ++ [c]).
Proof.
  intros Hc Hnd Hsame Hlast Hnew.
  induction cs as [|c0 cs IH]; [done|].
  destruct Hc as (Hn & Hd & Hb & Hcs).
  apply NoDup_addresses_cons in Hnd as (Hnd0 & Hb0 & Hn0 & Hd0 & Hnd).
  assert (Hd' : h' !! c_data c0 = h !! c_data c0).
  { apply Hsame; [apply elem_of_addresses_cons; tauto|].
    intros Heq. destruct cs as [|c1 cs].
    - cbn [last_node] in Heq. congruence.
    - rewrite last_node_cons in Heq. apply Hd0. rewrite Heq.
      by apply last_node_addresses. }
  assert (Hb' : stored h' c0).
  { apply (stored_frame h); [done|]. intros Hne.
    destruct (Hb0 Hne) as (Hbn & Hbd & Hbcs).
    apply Hsame; [apply elem_of_addresses_cons; tauto|].
    intros Heq. destruct cs as [|c1 cs].
    - cbn [last_node] in Heq. congruence.
    - rewrite last_node_cons in Heq. apply Hbcs. rewrite Heq.
      by apply last_node_addresses. }
  destruct cs as [|c1 cs].
  - cbn [app chain last_node first_node] in *.
    rewrite (Hlast _ _ ltac:(done) Hn), Hd'. done.
  - rewrite last_node_cons in Hsame, Hlast.
    assert (Hin : last_node (c1 :: cs) ∈ addresses (c1 :: cs))
      by by apply last_node_addresses.
    change ((c0 :: c1 :: cs) ++ [c]) with (c0 :: ((c1 :: cs) ++ [c])).
    cbn [chain]. rewrite Hd', (Hsame (c_node c0)).
    + split_and!; try done.
      apply IH; try done.
      * intros p Hp Hne. apply Hsame; [|done].
        apply elem_of_addresses_cons. tauto.
      * intros d n _ Hl. by eapply Hlast.
    + apply elem_of_addresses_cons. tauto.
    + intros Heq. apply Hn0. by rewrite Heq.
Qed.

(** The stored bytes are live heap bytes. *)
Lemma resident_le_heap_bytes h cs :
  chain h cs → NoDup (addresses cs) → resident cs ≤ heap_bytes h.
Proof.
  revert h. induction cs as [|c cs IH]; intros h Hc Hnd.
  - apply heap_bytes_nonneg.
  - destruct Hc as (Hn & Hd & Hb & Hcs).
    apply NoDup_addresses_cons in Hnd as (Hnd0 & Hb0 & Hn0 & Hd0 & Hnd).
    rewrite resident_cons. unfold stored in Hb.
    destruct (c_bytes c) as [|b0 m] eqn:Hbytes.
    { cbn [length]. specialize (IH h Hcs Hnd). lia. }
    destruct (Hb0 ltac:(done)) as (_ & _ & Hbcs).
    rewrite (heap_bytes_delete h _ _ Hb). unfold sizeof.
    assert (resident cs ≤ heap_bytes (delete (c_buf c) h)); [|lia].
    apply IH; [|done]. eapply chain_frame; [done|].
    intros p Hp. apply lookup_delete_ne. intros Heq. apply Hbcs. by rewrite Heq.
Qed.

(** ** enqueue *)

Arguments last_node : simpl never.

Lemma last_node_singleton c : last_node [c] = c_node c.
Proof. reflexivity. Qed.

(** One step of symbolic evaluation: unfold the monad, resolve the heap
    lookups and the pointer comparisons that are decided. *)
Ltac exec :=
  repeat first
    [ progress cbn
    | rewrite lookup_insert_eq
    | rewrite lookup_insert_ne by congruence
    | rewrite lookup_delete_ne by congruence
    | rewrite bool_decide_eq_false_2 by congruence
    | rewrite bool_decide_eq_true_2 by congruence
    | rewrite ZERO_OR_NULL_PTR_ZERO_SIZE_PTR
    | rewrite ZERO_OR_NULL_PTR_NULL
    | match goal with
      | H : ZERO_OR_NULL_PTR ?p = _ |- context [ZERO_OR_NULL_PTR ?p] =>
        rewrite H
      | H : ?h !! ?p = _ |- context [?h !! ?p] => rewrite H
      end ].

Ltac kmalloc_step p Hnull Hfree Hok Hfit :=
  match goal with
  | |- context [kmalloc ?o ?b (State ?h ?q ?m)] =>
    let Hlow := fresh "Hlow" in
    destruct (kmalloc_cases o b h q m
                ltac:(unfold sizeof; rewrite ?length_fmap, ?length_seq, ?Nat2Z.id; lia))
      as [[Hfit ->] | (p & Hnull & Hlow & Hfree & Hok & Hfit & ->)]
  end.

Ltac map_norm :=
  apply map_eq; intros ?; rewrite ?lookup_delete, ?lookup_insert;
  repeat case_decide; congruence.

(** Equations between finite sets of addresses, by membership. *)
Ltac sets :=
  apply set_eq; intros ?; set_unfold; intuition (subst; auto; congruence).

Ltac distinct :=
  rewrite ?elem_of_cons, elem_of_nil; intros Hx; decompose [or] Hx; congruence.

Lemma chain_last h cs :
  chain h cs → cs ≠ [] → ∃ d, h !! last_node cs = Some (Node d NULL).
Proof.
  induction cs as [|c cs IH]; [done|]. intros (Hn & _ & _ & Hcs) _.
  destruct cs as [|c' cs]; [by exists (c_data c)|].
  rewrite last_node_cons. by apply IH.
Qed.

Lemma addresses_live cs p :
  Forall (λ p, ZERO_OR_NULL_PTR p = false) (addresses cs) →
  p ∈ addresses cs → ZERO_OR_NULL_PTR p = false.
Proof. rewrite Forall_forall. auto. Qed.

Lemma last_node_NULL cs :
  Forall (λ p, ZERO_OR_NULL_PTR p = false) (addresses cs) →
  last_node cs = NULL → cs = [].
Proof.
  intros Hlive Heq. destruct cs as [|c cs]; [done|].
  assert (Hin : last_node (c :: cs) ∈ addresses (c :: cs))
    by by apply last_node_addresses.
  apply (addresses_live _ _ Hlive) in Hin. by rewrite Heq in Hin.
Qed.

Lemma first_node_NULL cs :
  Forall (λ p, ZERO_OR_NULL_PTR p = false) (addresses cs) →
  first_node cs = NULL → cs = [].
Proof.
  intros Hlive Heq. destruct cs as [|c cs]; [done|].
  apply Forall_addresses_cons in Hlive as (Hn & _). cbn in Heq.
  by rewrite Heq in Hn.
Qed.

Lemma enqueue_NULL message message_size g s :
  queuep s = None → enqueue message message_size g s = Ret SUCCESS s.
Proof. intros Hq. unfold enqueue. cbn. by rewrite Hq. Qed.

(** Linking a cell that has been built next to a well-formed queue: [h3]
    is the heap with the new cell in it, [h4] the heap once the old last
    node points to it. *)
Lemma queued_snoc h h3 h4 max cs c :
  queued (State h (Some (MessageQueue (first_node cs) (last_node cs)
                                      (resident cs))) max) cs →
  (∀ p, p ∈ addresses [c] → h !! p = None ∧ ZERO_OR_NULL_PTR p = false) →
  NoDup (addresses [c]) →
  Z.of_nat (length (c_bytes c)) ≤ MAX_MESSAGE_SIZE →
  chain h3 [c] →
  (∀ p, p ∉ addresses [c] → h3 !! p = h !! p) →
  dom h3 = list_to_set (addresses [c]) ∪ dom h →
  heap_bytes h3 = heap_bytes h + 32 + Z.of_nat (length (c_bytes c)) →
  heap_bytes h3 < ULONG_MODULUS →
  (cs = [] ∧ h4 = h3) ∨
  (cs ≠ [] ∧ ∃ dl, h !! last_node cs = Some (Node dl NULL) ∧
                   h4 = <[last_node cs := Node dl (c_node c)]> h3) →
  queued (State h4 (Some (MessageQueue (first_node (cs ++ [c]))
                                       (last_node (cs ++ [c]))
                                       (resident (cs ++ [c])))) max)
         (cs ++ [c]) ∧
  dom h4 = list_to_set (addresses [c]) ∪ dom h ∧
  heap_bytes h4 = heap_bytes h + 32 + Z.of_nat (length (c_bytes c)).
Proof.
  intros [_ Hc Hnd Hlive Hsz Hhb Hlow] Hnew Hnd1 Hmax Hc3 Hsame Hdom3 Hh3 Hfit Hh4.
  cbn [heap queuep MAX_MESSAGES_SIZE] in *.
  assert (Hold : ∀ p, p ∈ addresses cs → p ∉ addresses [c]).
  { intros p Hp Hin. destruct (chain_lookup h cs p Hc Hp) as [o Ho].
    destruct (Hnew p Hin) as [Hnone _]. congruence. }
  assert (Hnd' : NoDup (addresses (cs ++ [c]))).
  { rewrite addresses_snoc, <- addresses_singleton. apply NoDup_app.
    split_and!; done. }
  assert (Hlive' : Forall (λ p, ZERO_OR_NULL_PTR p = false)
                     (addresses (cs ++ [c]))).
  { rewrite addresses_snoc, <- addresses_singleton. apply Forall_app.
    split; [done|]. apply Forall_forall. intros p Hp. by apply Hnew. }
  assert (Hsz' : Forall (λ c, Z.of_nat (length (c_bytes c)) ≤ MAX_MESSAGE_SIZE)
                   (cs ++ [c])).
  { apply Forall_app. split; [done|]. by apply Forall_singleton. }
  assert (Hlow3 : ∀ p, ZERO_OR_NULL_PTR p = true → h3 !! p = None).
  { intros p Hp. rewrite Hsame; [by apply Hlow|].
    intros Hin. destruct (Hnew p Hin) as [_ Hl]. congruence. }
  destruct Hh4 as [[-> ->]|(Hcs & dl & Hl & ->)].
  - split_and!; [constructor; cbn [heap queuep MAX_MESSAGES_SIZE]; done|done..].
  - pose proof (last_node_addresses cs Hcs) as Hin.
    assert (Hl3 : h3 !! last_node cs = Some (Node dl NULL)).
    { rewrite Hsame; [done|]. by apply Hold. }
    assert (Hne : ∀ p, p ∈ addresses [c] → last_node cs ≠ p).
    { intros p Hp Heq. rewrite <- Heq in Hp. by apply (Hold _ Hin). }
    split_and!.
    + constructor; cbn [heap queuep MAX_MESSAGES_SIZE]; try done.
      * apply (chain_snoc h); try done.
        -- intros p Hp Hnep. rewrite lookup_insert_ne by done.
           apply Hsame. by apply Hold.
        -- intros d0 n0 _ Heq. rewrite lookup_insert_eq. congruence.
        -- eapply chain_frame; [exact Hc3|]. intros p Hp.
           apply lookup_insert_ne. by apply Hne.
      * rewrite (heap_bytes_insert _ _ _ _ Hl3). unfold sizeof. lia.
      * intros p Hp. rewrite lookup_insert_ne; [by apply Hlow3|].
        intros <-. apply (addresses_live _ _ Hlive) in Hin. congruence.
    + rewrite dom_insert_L, Hdom3.
      assert (Hlast : last_node cs ∈ dom h) by (apply elem_of_dom; eauto).
      clear -Hlast. set_unfold. intros x. split; [|tauto].
      intros [->|?]; tauto.
    + rewrite (heap_bytes_insert _ _ _ _ Hl3). unfold sizeof. lia.
Qed.

(** What [enqueue] does to a well-formed queue.  It returns, and either
    it returns -1 from a state identical to the one it started in (some
    allocation failed), or it returns SUCCESS with one more cell behind
    the others, holding the characters of [message]. *)
Lemma enqueue_run s cs message message_size g :
  queued s cs →
  message_size = Z.of_nat (length message) →
  message_size ≤ MAX_MESSAGE_SIZE →
  ∃ r s', enqueue message message_size g s = Ret r s' ∧
    ((r = -1 ∧ s' = s ∧ ¬ allocations_succeed g s message_size) ∨
     (r = SUCCESS ∧ allocations_succeed g s message_size ∧
      ∃ c, c_bytes c = message ∧ queued s' (cs ++ [c]) ∧
           MAX_MESSAGES_SIZE s' = MAX_MESSAGES_SIZE s ∧
           heap s !! c_node c = None ∧
           dom (heap s') = list_to_set (addresses [c]) ∪ dom (heap s) ∧
           heap_bytes (heap s') = heap_bytes (heap s) + 32 + message_size)).
Proof.
  intros H -> Hmax. pose proof H as [Hq Hc Hnd Hlive Hsz Hhb Hlow].
  destruct s as [h qo max]. cbn [heap queuep MAX_MESSAGES_SIZE] in *. subst qo.
  pose proof (heap_bytes_nonneg h) as Hh0.
  unfold enqueue, allocations_succeed. cbn.
  kmalloc_step n Hn0 Hn Hok1 Hfit1.
  { cbn. eexists _, _. split; [done|]. left. split_and!; try done.
    unfold sizeof in Hfit1. intros (?&?&?&?). destruct Hfit1; [congruence|lia]. }
  exec. rewrite insert_insert_eq.
  kmalloc_step d Hd0 Hd Hok2 Hfit2.
  { exec. rewrite insert_insert_eq, delete_insert_id by done.
    eexists _, _. split; [done|]. left. split_and!; try done.
    rewrite heap_bytes_insert_fresh in Hfit2 by done.
    unfold sizeof in Hfit2. intros (?&?&?&?). destruct Hfit2; [congruence|lia]. }
  assert (Hdn : d ≠ n) by (intros ->; by rewrite lookup_insert_eq in Hd).
  rewrite lookup_insert_ne in Hd by done.
  rewrite heap_bytes_insert_fresh in Hfit2 by done. unfold sizeof in Hfit1, Hfit2.
  exec.
  match goal with |- context [State (<[n:=?o]> (<[d:=?o']> ?hh))] =>
    replace (<[n:=o]> (<[d:=o']> hh))
      with (<[d:=o']> (<[n:=Node d NULL]> h)) by map_norm end.
  pose proof (resident_le_heap_bytes h cs Hc Hnd) as Hres.
  pose proof (resident_nonneg cs) as Hres0.
  destruct message as [|b0 m].
  - cbn [length] in *. change (Z.of_nat 0) with 0 in *.
    rewrite kmalloc_zero by reflexivity.
    exec. rewrite (bool_decide_eq_false_2 (ZERO_SIZE_PTR = NULL)) by done.
    exec. rewrite !insert_insert_eq.
    set (c := Cell n d ZERO_SIZE_PTR []).
    set (h3 := <[d:=Data ZERO_SIZE_PTR 0]> (<[n:=Node d NULL]> h)).
    assert (Hh3n : h3 !! n = Some (Node d NULL))
      by (unfold h3; by rewrite lookup_insert_ne, lookup_insert_eq by done).
    assert (Hh3d : h3 !! d = Some (Data ZERO_SIZE_PTR 0))
      by (unfold h3; by rewrite lookup_insert_eq).
    assert (Hh3 : heap_bytes h3 = heap_bytes h + 32 + 0).
    { unfold h3. rewrite !heap_bytes_insert_fresh
        by (rewrite ?lookup_insert_ne by done; done).
      unfold sizeof. lia. }
    assert (Hnew : ∀ p, p ∈ addresses [c] →
                        h !! p = None ∧ ZERO_OR_NULL_PTR p = false).
    { intros p. cbn. rewrite !elem_of_cons, elem_of_nil.
      intros [->|[->|[]]]; done. }
    assert (Hsame : ∀ p, p ∉ addresses [c] → h3 !! p = h !! p).
    { intros p Hp. unfold h3. rewrite !lookup_insert_ne; [done|..];
        intros <-; apply Hp; cbn; in_cons. }
    assert (Hlink : ∀ h4,
      (cs = [] ∧ h4 = h3) ∨
      (cs ≠ [] ∧ ∃ dl, h !! last_node cs = Some (Node dl NULL) ∧
                       h4 = <[last_node cs := Node dl (c_node c)]> h3) →
      queued (State h4 (Some (MessageQueue (first_node (cs ++ [c]))
                (last_node (cs ++ [c])) (resident (cs ++ [c])))) max)
             (cs ++ [c]) ∧
      dom h4 = list_to_set (addresses [c]) ∪ dom h ∧
      heap_bytes h4 = heap_bytes h + 32 + Z.of_nat (length (c_bytes c))).
    { intros h4. apply (queued_snoc h h3 h4 max cs c H).
      - exact Hnew.
      - cbn. repeat apply NoDup_cons_2; [..|apply NoDup_nil_2]; distinct.
      - cbn. unfold MAX_MESSAGE_SIZE. lia.
      - cbn. by split_and!.
      - exact Hsame.
      - unfold h3. rewrite !dom_insert_L. cbn. clear. sets.
      - cbn. lia.
      - lia. }
    assert (Hall : node_ok g = true ∧ data_ok g = true ∧
                   (0 = 0 ∨ message_ok g = true) ∧
                   heap_bytes h + 16 + 16 + 0 < ULONG_MODULUS)
      by (split_and!; [done|done|by left|lia]).
    assert (Hms : to_ulong (resident cs + 0) = resident (cs ++ [c])).
    { rewrite resident_snoc. apply to_ulong_small. cbn. lia. }
    clearbody h3.
    case_bool_decide as Hrear.
    + apply last_node_NULL in Hrear as ->; [|done].
      exec. rewrite Hms.
      destruct (Hlink h3) as (Hq' & Hdom' & Hhb'); [by left|].
      eexists _, _. split; [done|]. right. split; [done|]. split; [done|].
      exists c. by split_and!.
    + assert (Hcs : cs ≠ []) by (by intros ->).
      destruct (chain_last h cs Hc Hcs) as [dl Hl].
      pose proof (last_node_addresses cs Hcs) as Hin.
      pose proof (addresses_live _ _ Hlive Hin) as Hlast.
      destruct (Hlink _ (or_intror (conj Hcs (ex_intro _ dl (conj Hl eq_refl)))))
        as (Hq' & Hdom' & Hhb').
      assert (Hln : last_node cs ≠ n) by congruence.
      assert (Hld : last_node cs ≠ d) by congruence.
      assert (Hl3 : h3 !! last_node cs = Some (Node dl NULL)).
      { rewrite Hsame; [done|]. cbn. distinct. }
      exec. rewrite Hms.
      rewrite first_node_snoc, last_node_snoc in Hq'.
      destruct cs as [|c0 cs0]; [done|].
      eexists _, _. split; [done|]. right. split; [done|]. split; [done|].
      exists c. by split_and!.
  - remember (b0 :: m) as message eqn:Hmsg.
    assert (Hlen : 0 < Z.of_nat (length message))
      by (subst message; cbn [length]; lia).
    kmalloc_step b Hb0 Hb Hok3 Hfit3.
    { exec. replace (delete n _) with h by map_norm.
      eexists _, _. split; [done|]. left. split_and!; try done.
      rewrite !heap_bytes_insert_fresh in Hfit3
        by (rewrite ?lookup_insert_ne by done; done).
      unfold sizeof in Hfit3. rewrite length_fmap, length_seq, Nat2Z.id in Hfit3.
      intros (?&?&[?|?]&?); [lia|]. destruct Hfit3; [congruence|lia]. }
    assert (Hbd : b ≠ d) by (intros ->; by rewrite lookup_insert_eq in Hb).
    rewrite lookup_insert_ne in Hb by done.
    assert (Hbn : b ≠ n) by (intros ->; by rewrite lookup_insert_eq in Hb).
    rewrite lookup_insert_ne in Hb by done.
    rewrite !heap_bytes_insert_fresh in Hfit3
      by (rewrite ?lookup_insert_ne by done; done).
    unfold sizeof in Hfit3. rewrite length_fmap, length_seq, Nat2Z.id in Hfit3.
    exec. rewrite (bool_decide_eq_false_2 (Z.of_nat (length message) = 0)) by lia.
    exec. rewrite Nat2Z.id, firstn_all.
    set (c := Cell n d b message).
    match goal with |- context [State (<[d:=?o]> ?hh)] =>
      replace (<[d:=o]> hh)
        with (<[b:=Buf message]> (<[d:=Data b (Z.of_nat (length message))]>
                (<[n:=Node d NULL]> h))) by map_norm end.
    set (h3 := <[b:=Buf message]> _).
    assert (Hh3n : h3 !! n = Some (Node d NULL))
      by (unfold h3; by rewrite !lookup_insert_ne, lookup_insert_eq by done).
    assert (Hh3d : h3 !! d = Some (Data b (Z.of_nat (length message))))
      by (unfold h3; by rewrite lookup_insert_ne, lookup_insert_eq by done).
    assert (Hh3b : h3 !! b = Some (Buf message))
      by (unfold h3; by rewrite lookup_insert_eq).
    assert (Hh3 : heap_bytes h3 = heap_bytes h + 32 + Z.of_nat (length message)).
    { unfold h3. rewrite !heap_bytes_insert_fresh
        by (rewrite ?lookup_insert_ne by done; done).
      unfold sizeof. lia. }
    assert (Haddr : addresses [c] = [n; d; b]).
    { unfold c. rewrite addresses_singleton. unfold live_buffer.
      cbn [c_bytes c_node c_data c_buf]. by rewrite Hmsg. }
    assert (Hnew : ∀ p, p ∈ addresses [c] →
                        h !! p = None ∧ ZERO_OR_NULL_PTR p = false).
    { intros p. rewrite Haddr, !elem_of_cons, elem_of_nil.
      intros [->|[->|[->|[]]]]; done. }
    assert (Hsame : ∀ p, p ∉ addresses [c] → h3 !! p = h !! p).
    { intros p Hp. rewrite Haddr in Hp.
      unfold h3. rewrite !lookup_insert_ne; [done|..];
        intros <-; apply Hp; in_cons. }
    assert (Hlink : ∀ h4,
      (cs = [] ∧ h4 = h3) ∨
      (cs ≠ [] ∧ ∃ dl, h !! last_node cs = Some (Node dl NULL) ∧
                       h4 = <[last_node cs := Node dl (c_node c)]> h3) →
      queued (State h4 (Some (MessageQueue (first_node (cs ++ [c]))
                (last_node (cs ++ [c])) (resident (cs ++ [c])))) max)
             (cs ++ [c]) ∧
      dom h4 = list_to_set (addresses [c]) ∪ dom h ∧
      heap_bytes h4 = heap_bytes h + 32 + Z.of_nat (length (c_bytes c))).
    { intros h4. apply (queued_snoc h h3 h4 max cs c H).
      - exact Hnew.
      - rewrite Haddr. repeat apply NoDup_cons_2; [..|apply NoDup_nil_2]; distinct.
      - done.
      - cbn [chain first_node]. split_and!; try done. unfold stored, c.
        cbn [c_bytes c_buf]. by destruct message.
      - exact Hsame.
      - rewrite Haddr. unfold h3. rewrite !dom_insert_L. clear. sets.
      - done.
      - lia. }
    assert (Hall : node_ok g = true ∧ data_ok g = true ∧
                   (Z.of_nat (length message) = 0 ∨ message_ok g = true) ∧
                   heap_bytes h + 16 + 16 + Z.of_nat (length message)
                   < ULONG_MODULUS) by (split_and!; [done|done|by right|lia]).
    assert (Hms : to_ulong (resident cs + Z.of_nat (length message))
                  = resident (cs ++ [c])).
    { rewrite resident_snoc. apply to_ulong_small. cbn. lia. }
    clearbody h3. clear Hmsg.
    case_bool_decide as Hrear.
    + apply last_node_NULL in Hrear as ->; [|done].
      exec. rewrite Hms.
      destruct (Hlink h3) as (Hq' & Hdom' & Hhb'); [by left|].
      eexists _, _. split; [done|]. right. split; [done|]. split; [done|].
      exists c. by split_and!.
    + assert (Hcs : cs ≠ []) by (by intros ->).
      destruct (chain_last h cs Hc Hcs) as [dl Hl].
      pose proof (last_node_addresses cs Hcs) as Hin.
      pose proof (addresses_live _ _ Hlive Hin) as Hlast.
      destruct (Hlink _ (or_intror (conj Hcs (ex_intro _ dl (conj Hl eq_refl)))))
        as (Hq' & Hdom' & Hhb').
      assert (Hln : last_node cs ≠ n) by congruence.
      assert (Hld : last_node cs ≠ d) by congruence.
      assert (Hl3 : h3 !! last_node cs = Some (Node dl NULL)).
      { rewrite Hsame; [done|]. rewrite Haddr. distinct. }
      exec. rewrite Hms.
      rewrite first_node_snoc, last_node_snoc in Hq'.
      destruct cs as [|c0 cs0]; [done|].
      eexists _, _. split; [done|]. right. split; [done|]. split; [done|].
      exists c. by split_and!.
Qed.

Arguments dequeue : simpl never.
Arguments enqueue : simpl never.

(** ** dequeue and device_read *)

Lemma queued_frame h q max h' cs :
  queued (State h q max) cs →
  (∀ p, p ∈ addresses cs → h' !! p = h !! p) →
  heap_bytes h' < ULONG_MODULUS →
  (∀ p, ZERO_OR_NULL_PTR p = true → h' !! p = None) →
  ∀ max', queued (State h' q max') cs.
Proof.
  intros [Hq Hc Hnd Hlive Hsz Hhb Hlow] Hsame Hfit Hlow' max'.
  constructor; cbn [heap queuep MAX_MESSAGES_SIZE] in *; try done.
  by apply (chain_frame h).
Qed.

(** The limit plays no part in the shape of the queue. *)
Lemma queued_limit s cs max' :
  queued s cs → queued (State (heap s) (queuep s) max') cs.
Proof.
  intros Hq. destruct s as [h q max]. cbn [heap queuep].
  apply (queued_frame h q max h cs Hq); [done| |].
  - apply (queued_heap _ _ Hq).
  - apply (queued_low _ _ Hq).
Qed.

Lemma dequeue_empty s : queued s [] → dequeue s = Ret NULL s.
Proof.
  intros [Hq _ _ _ _ _ _]. unfold dequeue. cbn. rewrite Hq. by exec.
Qed.

Lemma dequeue_run s c cs :
  queued s (c :: cs) →
  ∃ s', dequeue s = Ret (c_data c) s' ∧
        heap s' = delete (c_node c) (heap s) ∧
        queuep s' = Some (MessageQueue (first_node cs) (last_node cs) (resident cs)) ∧
        MAX_MESSAGES_SIZE s' = MAX_MESSAGES_SIZE s.
Proof.
  intros [Hq Hc Hnd Hlive Hsz Hhb Hlow].
  destruct s as [h qo max]. cbn [heap queuep MAX_MESSAGES_SIZE] in *. subst qo.
  pose proof (resident_le_heap_bytes h _ Hc Hnd) as Hres.
  pose proof (resident_nonneg cs) as Hres0.
  destruct Hc as (Hn & Hd & Hb & Hcs).
  apply NoDup_addresses_cons in Hnd as (Hnd0 & Hb0 & Hn0 & Hd0 & Hnd).
  apply Forall_addresses_cons in Hlive as (Hln & Hld & Hlb & Hlive).
  assert (Hnn : c_node c ≠ NULL) by (by apply live_not_NULL).
  assert (Hms : to_ulong (resident (c :: cs) - Z.of_nat (length (c_bytes c)))
                = resident cs).
  { rewrite resident_cons in *.
    replace (Z.of_nat (length (c_bytes c)) + resident cs
             - Z.of_nat (length (c_bytes c))) with (resident cs) by lia.
    apply to_ulong_small. lia. }
  unfold dequeue.
  destruct cs as [|c' cs].
  - rewrite last_node_singleton. exec. rewrite Hms. by eexists.
  - rewrite last_node_cons.
    assert (Hne : c_node c ≠ last_node (c' :: cs)).
    { intros Heq. apply Hn0. rewrite Heq. by apply last_node_addresses. }
    exec. rewrite Hms. by eexists.
Qed.

Lemma queued_pop h q max c cs :
  queued (State h q max) (c :: cs) →
  ∀ h', (∀ p, p ∈ addresses cs → h' !! p = h !! p) →
        heap_bytes h' ≤ heap_bytes h →
        (∀ p, ZERO_OR_NULL_PTR p = true → h' !! p = None) →
  queued (State h' (Some (MessageQueue (first_node cs) (last_node cs) (resident cs))) max) cs.
Proof.
  intros [Hq Hc Hnd Hlive Hsz Hhb Hlow] h' Hsame Hle Hlow'.
  cbn [heap queuep MAX_MESSAGES_SIZE] in *.
  destruct Hc as (_ & _ & _ & Hc).
  apply NoDup_addresses_cons in Hnd as (_ & _ & _ & _ & Hnd).
  apply Forall_addresses_cons in Hlive as (_ & _ & _ & Hlive).
  constructor; cbn [heap queuep MAX_MESSAGES_SIZE]; try done.
  - by apply (chain_frame h).
  - by apply Forall_cons in Hsz as [_ Hsz].
  - lia.
Qed.

(** The character array of the first cell is not an address of the cells
    behind it, whether it is allocated or not. *)
Lemma buffer_apart h c cs :
  stored h c → NoDup (addresses (c :: cs)) →
  Forall (λ p, ZERO_OR_NULL_PTR p = false) (addresses cs) →
  c_buf c ∉ addresses cs.
Proof.
  intros Hb Hnd Hlive Hin. unfold stored in Hb.
  apply NoDup_addresses_cons in Hnd as (_ & Hb0 & _).
  destruct (c_bytes c) as [|b0 m] eqn:Hbytes.
  - apply (addresses_live _ _ Hlive) in Hin. by rewrite Hb in Hin.
  - by destruct (Hb0 ltac:(done)) as (_ & _ & ?).
Qed.

Lemma queued_after_read s c cs : queued s (c :: cs) → queued (after_read s c cs) cs.
Proof.
  intros Hq. destruct s as [h q max]. unfold after_read. cbn [heap MAX_MESSAGES_SIZE].
  apply (queued_pop h q max c cs Hq).
  - destruct Hq as [_ Hc Hnd Hlive _ _ _]. cbn [heap] in *.
    destruct Hc as (_ & _ & Hb & _).
    apply Forall_addresses_cons in Hlive as (_ & _ & _ & Hlive).
    pose proof (buffer_apart h c cs Hb Hnd Hlive) as Hbuf.
    apply NoDup_addresses_cons in Hnd as (_ & _ & Hn0 & Hd0 & _).
    intros p Hp. rewrite !lookup_delete_ne; [done|..]; by intros <-.
  - etrans; [apply heap_bytes_delete_le|]. etrans; [apply heap_bytes_delete_le|].
    apply heap_bytes_delete_le.
  - intros p Hp. rewrite !lookup_delete_None. do 3 right.
    by apply (queued_low _ _ Hq).
Qed.

Lemma device_read_run s c cs buffer length :
  queued s (c :: cs) → resident (c :: cs) ≠ 0 → 0 ≤ length →
  device_read buffer length s =
    match read_loop buffer 0
            (Z.to_nat (Z.min length (Z.of_nat (List.length (c_bytes c)))))
            (c_bytes c) with
    | Copied r out => Ret (r, out) (after_read s c cs)
    | Faulted out => Ret (- EFAULT, out) (after_read s c cs)
    | Overrun => Oops
    end.
Proof.
  intros Hq Hres Hlen.
  destruct (dequeue_run s c cs Hq) as (s1 & Hdeq & Hh1 & Hq1 & Hmax1).
  destruct Hq as [Hqp Hc Hnd Hlive Hsz Hhb Hlow].
  destruct s as [h qo max]. destruct s1 as [h1 q1 max1].
  cbn [heap queuep MAX_MESSAGES_SIZE] in *. subst.
  destruct Hc as (Hn & Hd & Hb & Hcs).
  apply NoDup_addresses_cons in Hnd as (Hnd0 & Hb0 & Hn0 & Hd0 & Hnd).
  apply Forall_addresses_cons in Hlive as (Hln & Hld & Hlb & Hlive).
  apply Forall_cons in Hsz as [Hsz _].
  assert (Hdn : c_data c ≠ c_node c) by congruence.
  unfold device_read, is_queue_empty, after_read. exec.
  cbn in Hdeq. rewrite Hdeq. exec.
  set (len := Z.of_nat (List.length (c_bytes c))) in *.
  assert (Htl : (if bool_decide (len >= length) then to_ushort length else len)
                = Z.min length len).
  { case_bool_decide.
    - rewrite to_ushort_small by lia. lia.
    - lia. }
  rewrite Htl. clear Htl.
  unfold stored in Hb. destruct (c_bytes c) as [|b0 m] eqn:Hbytes.
  - assert (Hz : Z.min length len = 0) by (unfold len; cbn; lia).
    rewrite Hb in Hd |- *. rewrite Hz. change (Z.to_nat 0) with 0%nat. exec.
    rewrite (delete_id _ ZERO_SIZE_PTR); [done|].
    rewrite lookup_delete_None. right. by apply Hlow.
  - destruct (Hb0 ltac:(done)) as (Hbn & Hbd & _).
    specialize (Hlb ltac:(done)).
    case_bool_decide as Hz.
    + rewrite Hz. change (Z.to_nat 0) with 0%nat. exec. done.
    + exec. destruct (read_loop _ _ _ _); exec; done.
Qed.

(** ** The copy loops *)


Lemma before_zero_split l :
  ∃ rest, l = before_zero l ++ rest ∧ (x00 ∉ before_zero l) ∧
          (rest = [] ∨ ∃ rest', rest = x00 :: rest').
Proof.
  induction l as [|c l (rest & Hl & Hz & Hrest)].
  - exists []. split_and!; [done| |by left]. apply not_elem_of_nil.
  - cbn [before_zero]. destruct (Byte.eqb c x00) eqn:Hc.
    + apply Byte.byte_dec_bl in Hc as ->. exists (x00 :: l).
      split_and!; [done| |right; by eexists]. apply not_elem_of_nil.
    + apply Byte.eqb_false in Hc. exists rest. split_and!; [|..|done].
      * cbn. by rewrite <- Hl.
      * rewrite elem_of_cons. intros [?|?]; [congruence|done].
Qed.

Lemma before_zero_id l : x00 ∉ l → before_zero l = l.
Proof.
  induction l as [|c l IH]; [done|]. rewrite not_elem_of_cons. intros [Hc Hl].
  cbn [before_zero]. destruct (Byte.eqb c x00) eqn:Heq.
  - by apply Byte.byte_dec_bl in Heq.
  - by rewrite IH.
Qed.


(** With a writable buffer the loop delivers the bytes in front of the
    first zero among the [tmp_length] first ones, and counts them. *)
Lemma read_loop_copied buffer i tmp_length tmp_message :
  (tmp_length ≤ length tmp_message)%nat →
  (∀ j, (j < length (before_zero (take tmp_length tmp_message)))%nat →
        buffer (i + j)%nat = true) →
  read_loop buffer i tmp_length tmp_message =
    Copied (Z.of_nat (length (before_zero (take tmp_length tmp_message))))
           (before_zero (take tmp_length tmp_message)).
Proof.
  revert i tmp_message.
  induction tmp_length as [|n IH]; intros i [|c m] Hlen Hbuf; try done.
  - cbn in Hlen. lia.
  - cbn [read_loop take before_zero] in *.
    destruct (Byte.eqb c x00) eqn:Hc; [done|].
    cbn [length] in *.
    assert (buffer i = true) as ->
      by (rewrite <- (Nat.add_0_r i); apply Hbuf; lia).
    rewrite IH.
    + cbn [put]. f_equal. lia.
    + lia.
    + intros j Hj. replace (S i + j)%nat with (i + S j)%nat by lia.
      apply Hbuf. lia.
Qed.

Lemma read_loop_no_overrun buffer i tmp_length tmp_message :
  (tmp_length ≤ length tmp_message)%nat →
  read_loop buffer i tmp_length tmp_message ≠ Overrun.
Proof.
  revert i tmp_message.
  induction tmp_length as [|n IH]; intros i [|c m] Hlen; try done.
  - cbn in Hlen. lia.
  - cbn [read_loop]. destruct (Byte.eqb c x00); [done|].
    destruct (buffer i); [|done]. cbn [length] in Hlen.
    specialize (IH (S i) m ltac:(lia)).
    by destruct (read_loop buffer (S i) n m).
Qed.

Lemma get_user_loop_length buffer i n l :
  get_user_loop buffer i n = Some l → length l = n.
Proof.
  revert i l. induction n as [|n IH]; intros i l; cbn [get_user_loop].
  - by intros [= <-].
  - destruct (buffer i); [|done].
    destruct (get_user_loop buffer (S i) n) as [l'|] eqn:Hl'; [|done].
    intros [= <-]. cbn. f_equal. by eapply IH.
Qed.

Lemma get_user_loop_source_of pre l :
  get_user_loop (source_of (pre ++ l)) (length pre) (length l) = Some l.
Proof.
  revert pre. induction l as [|c l IH]; intros pre; [done|].
  cbn [get_user_loop length]. unfold source_of at 1.
  rewrite lookup_app_r, Nat.sub_diag by lia. cbn.
  specialize (IH (pre ++ [c])). rewrite <- app_assoc, length_app in IH.
  cbn in IH. rewrite Nat.add_1_r in IH. by rewrite IH.
Qed.

Lemma get_user_loop_message l :
  get_user_loop (source_of l) 0 (length l) = Some l.
Proof. apply (get_user_loop_source_of [] l). Qed.

(** Whatever the user's buffer, a [device_read] that finds a byte queued
    returns, with the oldest message off the queue. *)
Lemma device_read_returns s c cs buffer length :
  queued s (c :: cs) → resident (c :: cs) ≠ 0 → 0 ≤ length →
  ∃ r, device_read buffer length s = Ret r (after_read s c cs).
Proof.
  intros Hq Hres Hlen.
  rewrite (device_read_run s c cs buffer length Hq Hres Hlen).
  destruct (read_loop _ _ _ _) as [n out|out|] eqn:Hloop; [by eexists..|].
  by apply read_loop_no_overrun in Hloop; [|lia].
Qed.

(** ** device_write *)

Lemma device_write_too_large buffer length g s :
  length > MAX_MESSAGE_SIZE → device_write buffer length g s = Ret (- EINVAL) s.
Proof.
  intros Hlen. unfold device_write, device_write_wait.
  rewrite bool_decide_eq_true_2 by done. done.
Qed.

Lemma device_write_wait_run s cs length :
  queued s cs → 0 ≤ length ≤ MAX_MESSAGE_SIZE →
  device_write_wait length s =
    if bool_decide (to_ulong (resident cs + length) > MAX_MESSAGES_SIZE s)
    then Blocked else Ret None s.
Proof.
  intros [Hq _ _ _ _ _] Hlen. unfold device_write_wait, is_space_in_queue.
  rewrite bool_decide_eq_false_2 by lia. cbn. rewrite Hq. cbn.
  rewrite to_ushort_small by done.
  case_bool_decide; exec; done.
Qed.

(** Every way a [device_write] of at most 4096 bytes can go. *)
Lemma device_write_run s cs buffer length g :
  queued s cs → 0 ≤ length ≤ MAX_MESSAGE_SIZE →
  (to_ulong (resident cs + length) > MAX_MESSAGES_SIZE s ∧
   device_write buffer length g s = Blocked) ∨
  (to_ulong (resident cs + length) ≤ MAX_MESSAGES_SIZE s ∧
   ((device_write buffer length g s = Ret (- EFAULT) s ∧
     ∀ message, get_user_loop buffer 0 (Z.to_nat length) = Some message →
                ¬ allocations_succeed g s length) ∨
    (∃ message c s',
       get_user_loop buffer 0 (Z.to_nat length) = Some message ∧
       allocations_succeed g s length ∧
       device_write buffer length g s = Ret length s' ∧
       c_bytes c = message ∧ queued s' (cs ++ [c]) ∧
       MAX_MESSAGES_SIZE s' = MAX_MESSAGES_SIZE s ∧
       dom (heap s') = list_to_set (addresses [c]) ∪ dom (heap s) ∧
       heap_bytes (heap s') = heap_bytes (heap s) + 32 + length))).
Proof.
  intros Hq Hlen. unfold device_write. cbn.
  rewrite (device_write_wait_run s cs length Hq Hlen).
  case_bool_decide as Hroom; [by left|]. right. split; [lia|].
  unfold device_write_send.
  destruct (get_user_loop buffer 0 (Z.to_nat length)) as [message|] eqn:Hget.
  - apply get_user_loop_length in Hget as Hl.
    assert (Hsize : to_ushort length = Z.of_nat (List.length message)).
    { rewrite to_ushort_small by done. lia. }
    destruct (enqueue_run s cs message (to_ushort length) g Hq Hsize)
      as (r & s' & Henq & Hcases); [lia|].
    cbn. rewrite Henq.
    rewrite to_ushort_small in Hcases by done.
    destruct Hcases
      as [(-> & -> & Hno)|(-> & Hyes & c & Hc & Hq' & Hmax & _ & Hdom & Hhb)].
    + left. split; [done|]. by intros ? [= <-].
    + right. exists message, c, s'.
      by rewrite bool_decide_eq_false_2 by (intros Hne; by apply Hne).
  - left. split; [done|]. by intros.
Qed.

(** ** device_ioctl *)

Lemma device_ioctl_run s q ioctl_num ioctl_param :
  queuep s = Some q →
  device_ioctl ioctl_num ioctl_param s =
    if bool_decide (ioctl_num = CHANGE_MAX_MESSAGES_SIZE ∧
                    ioctl_param > messages_size q)
    then Ret SUCCESS (State (heap s) (queuep s) ioctl_param)
    else Ret (- EINVAL) s.
Proof.
  intros Hq. unfold device_ioctl.
  case_bool_decide as Hnum.
  - cbn. rewrite Hq. cbn. case_bool_decide as Hparam.
    + rewrite bool_decide_eq_true_2 by (split; done). cbn. by rewrite Hq.
    + rewrite bool_decide_eq_false_2; [done|]. by intros [_ ?].
  - rewrite bool_decide_eq_false_2; [done|]. by intros [? _].
Qed.

(** ** What holds between two calls *)

Lemma device_read_blocked s q buffer length :
  queuep s = Some q → messages_size q = 0 →
  device_read buffer length s = Blocked.
Proof.
  intros Hq Hz. unfold device_read, is_queue_empty. cbn. rewrite Hq. cbn.
  rewrite bool_decide_eq_true_2 by done. done.
Qed.

Lemma resident_zero_head c cs :
  resident (c :: cs) = 0 → c_bytes c = [].
Proof.
  rewrite resident_cons. pose proof (resident_nonneg cs).
  intros Hz. apply length_zero_iff_nil. lia.
Qed.

Ltac decided := apply (bool_decide_unpack _); vm_compute; exact I.

Lemma low_absent (h : gmap ptr object) :
  Forall (λ p, ZERO_OR_NULL_PTR p = false) (elements (dom h)) →
  ∀ p, ZERO_OR_NULL_PTR p = true → h !! p = None.
Proof.
  rewrite Forall_forall. intros Hall p Hp. apply not_elem_of_dom.
  intros Hin%elem_of_elements. specialize (Hall p Hin). congruence.
Qed.

(** [queued] on a state and cells that are given in full. *)
Ltac queued_by_evaluation :=
  constructor;
    [ vm_compute; reflexivity
    | cbn [chain]; repeat split; vm_compute; reflexivity
    | decided | decided | decided
    | vm_compute; reflexivity
    | apply low_absent; decided ].


Lemma loaded_queued : queued loaded [].
Proof. queued_by_evaluation. Qed.

Lemma perform_settled s cs op s' :
  settled s cs → in_range op → perform op s = Some s' → ∃ cs', settled s' cs'.
Proof.
  intros [Hq Hlim] Hrange Hperf. destruct op as [buffer length g|buffer length|num param];
    cbn [perform in_range] in *.
  - destruct (decide (length > MAX_MESSAGE_SIZE)) as [Hbig|Hsmall].
    + rewrite device_write_too_large in Hperf by done.
      injection Hperf as <-. by exists cs.
    + destruct (device_write_run s cs buffer length g Hq ltac:(lia))
        as [[_ Hw]|[Hroom [[Hw _]|(m & c & s1 & Hget & _ & Hw & Hc & Hq1 & Hmax & _)]]];
        rewrite Hw in Hperf; [done|injection Hperf as <-; by exists cs|].
      injection Hperf as <-. exists (cs ++ [c]). split; [done|].
      apply get_user_loop_length in Hget.
      pose proof (resident_le_heap_bytes _ _ (queued_chain _ _ Hq1)
                    (queued_NoDup _ _ Hq1)) as Hres.
      pose proof (queued_heap _ _ Hq1) as Hfit.
      pose proof (resident_nonneg cs) as Hres0.
      rewrite resident_snoc, Hc, Hget, Z2Nat.id in * by lia.
      rewrite to_ulong_small in Hroom by lia. lia.
  - destruct (decide (resident cs = 0)) as [Hz|Hnz].
    + rewrite (device_read_blocked s _ buffer length (queued_queuep _ _ Hq) Hz)
        in Hperf. done.
    + destruct cs as [|c cs]; [done|].
      destruct (device_read_returns s c cs buffer length Hq Hnz)
        as [r Hread]; [lia|].
      rewrite Hread in Hperf. injection Hperf as <-.
      exists cs. split; [by apply queued_after_read|].
      rewrite resident_cons in Hlim. unfold after_read. cbn. lia.
  - rewrite (device_ioctl_run s _ num param (queued_queuep _ _ Hq)) in Hperf.
    cbn [messages_size] in Hperf. case_bool_decide as Hok.
    + injection Hperf as <-. exists cs. destruct s as [h q max].
      split; [|cbn; lia].
      apply (queued_limit _ _ param Hq).
    + injection Hperf as <-. by exists cs.
Qed.

Lemma reachable_settled s : reachable s → ∃ cs, settled s cs.
Proof.
  induction 1 as [|s op s' _ [cs Hs] Hrange Hperf].
  - exists []. split; [apply loaded_queued|]. vm_compute. discriminate.
  - by eapply perform_settled.
Qed.

(** ** Several calls in a row *)

Lemma write_all_queued ws : ∀ s cs rs s1,
  queued s cs →
  write_all ws s = Ret rs s1 →
  rs = (λ w, Z.of_nat (length w.1)) <$> ws →
  ∃ cs', queued s1 (cs ++ cs') ∧ c_bytes <$> cs' = fst <$> ws ∧
         MAX_MESSAGES_SIZE s1 = MAX_MESSAGES_SIZE s.
Proof.
  induction ws as [|[m g] ws IH]; intros s cs rs s1 Hq Hrun Hrs.
  - injection Hrun as <- <-. exists []. by rewrite app_nil_r.
  - cbn [write_all fmap list_fmap fst] in *. cbn in Hrun.
    destruct (device_write (source_of m) (Z.of_nat (length m)) g s)
      as [r s'| |] eqn:Hw; [|done..].
    destruct (write_all ws s') as [rs' s1'| |] eqn:Hws; [|done..].
    injection Hrun as <- <-. injection Hrs as -> ->.
    destruct (decide (Z.of_nat (length m) > MAX_MESSAGE_SIZE)) as [Hbig|Hsmall].
    { rewrite device_write_too_large in Hw by done.
      injection Hw as Hr _. unfold EINVAL in Hr. lia. }
    destruct (device_write_run s cs (source_of m) (Z.of_nat (length m)) g Hq
                ltac:(lia))
      as [[_ Hw']|[_ [[Hw' _]|(m' & c & s2 & Hget & _ & Hw' & Hc & Hq2 & Hmax & _)]]];
      rewrite Hw' in Hw; [done| |].
    { injection Hw as Hr _. unfold EFAULT in Hr. lia. }
    injection Hw as <-.
    rewrite Nat2Z.id, get_user_loop_message in Hget. injection Hget as <-.
    destruct (IH s2 (cs ++ [c]) _ s1' Hq2 Hws eq_refl) as (cs' & Hq1 & Hbytes & Hmax1).
    exists (c :: cs'). rewrite <- app_assoc in Hq1. split_and!; [done| |congruence].
    cbn. by rewrite Hc, Hbytes.
Qed.

Lemma device_read_copied s c cs buffer length :
  queued s (c :: cs) → resident (c :: cs) ≠ 0 → 0 ≤ length →
  (∀ j, (j < List.length (delivered c length))%nat → buffer j = true) →
  device_read buffer length s =
    Ret (Z.of_nat (List.length (delivered c length)), delivered c length)
        (after_read s c cs).
Proof.
  intros Hq Hres Hlen Hbuf.
  rewrite (device_read_run s c cs buffer length Hq Hres Hlen).
  rewrite read_loop_copied; [done|lia|done].
Qed.

Lemma delivered_whole c length :
  x00 ∉ c_bytes c → Z.of_nat (List.length (c_bytes c)) ≤ length →
  delivered c length = c_bytes c.
Proof.
  intros Hz Hlen. unfold delivered.
  rewrite take_ge by lia. by apply before_zero_id.
Qed.

Lemma read_all_queued cs lengths : ∀ s,
  queued s cs →
  Forall2 (λ c length, c_bytes c ≠ [] ∧ (x00 ∉ c_bytes c) ∧
                       Z.of_nat (List.length (c_bytes c)) ≤ length) cs lengths →
  ∃ s2, read_all lengths s =
          Ret ((λ c, (Z.of_nat (List.length (c_bytes c)), c_bytes c)) <$> cs) s2 ∧
        queued s2 [].
Proof.
  intros s Hq Hall. revert s Hq.
  induction Hall as [|c length cs lengths (Hne & Hz & Hlen) _ IH]; intros s Hq.
  - by exists s.
  - assert (Hres : resident (c :: cs) ≠ 0).
    { intros Hzero. by apply resident_zero_head in Hzero. }
    destruct (IH _ (queued_after_read s c cs Hq)) as (s2 & Hrun & Hq2).
    exists s2. split; [|done].
    cbn [read_all fmap list_fmap]. cbn.
    rewrite (device_read_copied s c cs (λ _, true) length Hq Hres) by (done || lia).
    rewrite (delivered_whole c length Hz Hlen). by rewrite Hrun.
Qed.

Lemma resident_concat cs :
  resident cs = Z.of_nat (List.length (concat (c_bytes <$> cs))).
Proof.
  induction cs as [|c cs IH]; [done|].
  cbn [fmap list_fmap concat]. rewrite resident_cons, length_app, IH. lia.
Qed.

(** Reading for as long as the reads return hands the cells over in
    their order, and stops where no byte is queued. *)
Lemma read_while_queued lengths : ∀ cs s,
  queued s cs → Forall (λ length, 0 ≤ length) lengths →
  (read_while lengths s).1 = fifo (c_bytes <$> cs) lengths ∧
  ((List.length (fifo (c_bytes <$> cs) lengths) < List.length lengths)%nat →
   ∀ sink length, device_read sink length (read_while lengths s).2 = Blocked).
Proof.
  induction lengths as [|length lengths IH]; intros cs s Hq Hpos.
  - split; [by destruct cs|]. cbn. lia.
  - apply Forall_cons in Hpos as [Hlen Hpos].
    destruct (decide (resident cs = 0)) as [Hz|Hnz].
    + assert (Hblocked : ∀ sink n, device_read sink n s = Blocked).
      { intros. by apply (device_read_blocked s _ _ _ (queued_queuep _ _ Hq)). }
      cbn [read_while]. rewrite Hblocked. cbn [fst snd].
      assert (Hfifo : fifo (c_bytes <$> cs) (length :: lengths) = []).
      { destruct cs as [|c cs]; [done|]. cbn [fmap list_fmap fifo].
        rewrite bool_decide_eq_true_2; [done|].
        apply length_zero_iff_nil. rewrite resident_concat in Hz.
        cbn [fmap list_fmap] in Hz. lia. }
      by rewrite Hfifo.
    + destruct cs as [|c cs]; [done|].
      cbn [read_while].
      rewrite (device_read_copied s c cs (λ _, true) length Hq Hnz Hlen) by done.
      destruct (IH cs _ (queued_after_read s c cs Hq) Hpos) as [IH1 IH2].
      destruct (read_while lengths (after_read s c cs)) as [rs s2].
      cbn [fst snd] in *. cbn [fmap list_fmap fifo].
      rewrite bool_decide_eq_false_2.
      * split; [by rewrite IH1|]. cbn [List.length]. intros Hlt. apply IH2. lia.
      * intros Hnil. apply Hnz. rewrite resident_concat.
        cbn [fmap list_fmap]. by rewrite Hnil.
Qed.

(** ** Properties of the driver *)

(** C1.  FIFO delivery, as the code has it.  When writes of the messages
    m1, ..., mk to an empty queue have all returned their length, the
    reads that follow hand the messages over in this order, one message
    per read, for as long as a byte is queued: the i-th read takes mi off
    the queue and delivers the bytes of mi in front of its first zero
    byte, at most [length] of them.  A read that finds no byte queued,
    because nothing is left or only messages of no bytes are, sleeps.  In
    particular messages that are not empty and hold no zero byte, read
    with buffers that are large enough, come back whole and in the order
    they were written. *)
Theorem fifo_delivery s ws rs s1 lengths :
  queued s [] →
  write_all ws s = Ret rs s1 →
  rs = (λ w, Z.of_nat (length w.1)) <$> ws →
  Forall (λ length, 0 ≤ length) lengths →
  (read_while lengths s1).1 = fifo ws.*1 lengths ∧
  ((List.length (fifo ws.*1 lengths) < List.length lengths)%nat →
   ∀ sink length, device_read sink length (read_while lengths s1).2 = Blocked) ∧
  (Forall2 (λ m length, m ≠ [] ∧ (x00 ∉ m) ∧ Z.of_nat (List.length m) ≤ length)
           ws.*1 lengths →
   ∃ s2, read_all lengths s1 =
           Ret ((λ m, (Z.of_nat (List.length m), m)) <$> ws.*1) s2).
Proof.
  intros Hq Hrun Hrs Hpos.
  destruct (write_all_queued ws s [] rs s1 Hq Hrun Hrs) as (cs & Hq1 & Hbytes & _).
  rewrite app_nil_l in Hq1. rewrite <- Hbytes.
  destruct (read_while_queued lengths cs s1 Hq1 Hpos) as [Hfifo Hstop].
  split_and!; [done|done|].
  intros Hall. apply Forall2_fmap_l in Hall.
  destruct (read_all_queued cs lengths s1 Hq1 Hall) as (s2 & Hread & _).
  exists s2. by rewrite <- list_fmap_compose.
Qed.

(** The messages "a", "" and "bc\0d" read four times with length 8: the
    reads return "a", "" and "bc", and the fourth sleeps. *)
Lemma fifo_delivery_witness :
  (read_while [8; 8; 8; 8] (after (write_all three_messages loaded))).1
    = [(1, [x61]); (0, []); (2, [x62; x63])] ∧
  ((3 < 4)%nat →
   ∀ sink length,
     device_read sink length
       (read_while [8; 8; 8; 8] (after (write_all three_messages loaded))).2
     = Blocked) ∧
  (Forall2 (λ m length, m ≠ [] ∧ (x00 ∉ m) ∧ Z.of_nat (List.length m) ≤ length)
           three_messages.*1 [8; 8; 8; 8] →
   ∃ s2, read_all [8; 8; 8; 8] (after (write_all three_messages loaded)) =
           Ret ((λ m, (Z.of_nat (List.length m), m)) <$> three_messages.*1) s2).
Proof.
  apply (fifo_delivery loaded three_messages [1; 0; 4]
           (after (write_all three_messages loaded)) [8; 8; 8; 8]).
  - apply loaded_queued.
  - vm_compute. reflexivity.
  - reflexivity.
  - repeat constructor; lia.
Defined.

(** A message of no bytes written to the empty queue is not returned by
    the read that follows, which sleeps; and of the message "ab\0c" the
    read returns "ab". *)
Lemma fifo_delivery_counterexample :
  value (write_all [([], all_ok)] loaded) = Some [0] ∧
  device_read (sink_of 8) 8 (after (write_all [([], all_ok)] loaded))
    = Blocked ∧
  value (write_all [(zero_inside, all_ok)] loaded) = Some [4] ∧
  value (device_read (sink_of 8) 8
           (after (write_all [(zero_inside, all_ok)] loaded)))
    = Some (2, [x61; x62]).
Proof. split_and!; vm_compute; reflexivity. Qed.

(** C2.  Resize guard.  The resize command of [device_ioctl] succeeds, and
    installs the new limit, exactly when the new limit is strictly greater
    than the bytes queued at that moment; otherwise it returns -EINVAL.
    The old limit plays no part. *)
Theorem resize_guard s q x :
  queuep s = Some q →
  (device_ioctl CHANGE_MAX_MESSAGES_SIZE x s
     = Ret SUCCESS (State (heap s) (queuep s) x) ↔ x > messages_size q) ∧
  (device_ioctl CHANGE_MAX_MESSAGES_SIZE x s
     = Ret (- EINVAL) s ↔ ¬ x > messages_size q).
Proof.
  intros Hq. rewrite (device_ioctl_run s q _ x Hq).
  case_bool_decide as Hok.
  - destruct Hok as [_ Hok]. split; split; try done.
    all: try (intros [= Habs]; unfold SUCCESS, EINVAL in Habs; lia).
  - assert (¬ x > messages_size q) by (intros ?; by apply Hok).
    split; split; try done.
    all: try (intros [= Habs]; unfold SUCCESS, EINVAL in Habs; lia).
Qed.

(** With 100 bytes queued and the limit at 2097152: 50 and 100 are
    refused, 101 is accepted although it is below the old limit. *)
Lemma resize_guard_witness :
  device_ioctl 0 50 hundred_queued = Ret (- EINVAL) hundred_queued ∧
  device_ioctl 0 100 hundred_queued = Ret (- EINVAL) hundred_queued ∧
  device_ioctl 0 101 hundred_queued
    = Ret SUCCESS (State (heap hundred_queued) (queuep hundred_queued) 101) ∧
  MAX_MESSAGES_SIZE hundred_queued = 2097152.
Proof.
  assert (Hq : queuep hundred_queued = Some (MessageQueue 17%N 17%N 100))
    by (vm_compute; reflexivity).
  split_and!.
  - apply (resize_guard hundred_queued _ 50 Hq). cbn. lia.
  - apply (resize_guard hundred_queued _ 100 Hq). cbn. lia.
  - apply (resize_guard hundred_queued _ 101 Hq). cbn. lia.
  - vm_compute. reflexivity.
Defined.

(** C3.  Per-message cap.  A [device_write] of more than 4096 bytes
    returns -EINVAL; it does not sleep and the state it returns in is the
    state it was called in. *)
Theorem per_message_cap buffer length g s :
  length > 4096 →
  device_write buffer length g s = Ret (- EINVAL) s.
Proof. intros Hlen. by apply device_write_too_large. Qed.

Lemma per_message_cap_witness :
  device_write (source_of (replicate 4097 x61)) 4097 all_ok hundred_queued
    = Ret (- EINVAL) hundred_queued.
Proof. apply per_message_cap. lia. Defined.

(** C4.  Truncated receive.  When no zero byte is among the first
    min(length, stored length) bytes of the oldest message and the user's
    buffer is writable that far, [device_read] returns min(length, stored
    length) and delivers exactly that many leading bytes.  The message is
    then off the queue and its character array released: what was not
    delivered is gone. *)
Theorem truncated_receive s c cs buffer length :
  queued s (c :: cs) → resident (c :: cs) ≠ 0 → 0 ≤ length →
  (x00 ∉ take (Z.to_nat (Z.min length (Z.of_nat (List.length (c_bytes c)))))
             (c_bytes c)) →
  (∀ j, (j < Z.to_nat (Z.min length (Z.of_nat (List.length (c_bytes c)))))%nat →
        buffer j = true) →
  device_read buffer length s =
    Ret (Z.min length (Z.of_nat (List.length (c_bytes c))),
         take (Z.to_nat (Z.min length (Z.of_nat (List.length (c_bytes c)))))
              (c_bytes c))
        (after_read s c cs) ∧
  queued (after_read s c cs) cs ∧
  heap (after_read s c cs) !! c_buf c = None.
Proof.
  intros Hq Hres Hlen Hz Hbuf.
  assert (Hd : delivered c length =
               take (Z.to_nat (Z.min length (Z.of_nat (List.length (c_bytes c)))))
                    (c_bytes c)) by (by apply before_zero_id).
  assert (Hn : List.length (delivered c length) =
               Z.to_nat (Z.min length (Z.of_nat (List.length (c_bytes c))))).
  { rewrite Hd, length_take. lia. }
  split_and!.
  - rewrite (device_read_copied s c cs buffer length Hq Hres Hlen).
    + rewrite Hn, Hd. do 2 f_equal. lia.
    + intros j Hj. apply Hbuf. lia.
  - by apply queued_after_read.
  - unfold after_read. cbn [heap].
    destruct (decide (c_data c = c_buf c)) as [->|Hne].
    + apply lookup_delete_eq.
    + rewrite lookup_delete_ne by done. apply lookup_delete_eq.
Qed.

(** A message of 10 bytes read with length 5 gives its first 5 bytes, read
    with length 20 all 10. *)
Lemma truncated_receive_witness :
  device_read (sink_of 5) 5 ten_queued
    = Ret (5, [x30; x31; x32; x33; x34]) (after_read ten_queued ten_cell []) ∧
  device_read (sink_of 20) 20 ten_queued
    = Ret (10, ten_bytes) (after_read ten_queued ten_cell []).
Proof.
  split.
  - apply (truncated_receive ten_queued ten_cell [] (sink_of 5) 5).
    + queued_by_evaluation.
    + vm_compute. discriminate.
    + lia.
    + decided.
    + intros j Hj. apply bool_decide_eq_true_2. vm_compute in Hj. exact Hj.
  - apply (truncated_receive ten_queued ten_cell [] (sink_of 20) 20).
    + queued_by_evaluation.
    + vm_compute. discriminate.
    + lia.
    + decided.
    + intros j Hj. apply bool_decide_eq_true_2. vm_compute in Hj. lia.
Defined.

(** C5.  Zero-byte termination.  Of the first min(length, stored length)
    bytes of the oldest message, [device_read] delivers the ones in front
    of the first zero byte and returns their number: the delivered bytes
    hold no zero, and what follows them among those first bytes is either
    nothing or starts with a zero byte. *)
Theorem zero_byte_termination s c cs buffer length :
  queued s (c :: cs) → resident (c :: cs) ≠ 0 → 0 ≤ length →
  (∀ j, (j < List.length (delivered c length))%nat → buffer j = true) →
  ∃ rest,
    take (Z.to_nat (Z.min length (Z.of_nat (List.length (c_bytes c)))))
         (c_bytes c) = delivered c length ++ rest ∧
    (x00 ∉ delivered c length) ∧
    (rest = [] ∨ ∃ rest', rest = x00 :: rest') ∧
    device_read buffer length s =
      Ret (Z.of_nat (List.length (delivered c length)), delivered c length)
          (after_read s c cs).
Proof.
  intros Hq Hres Hlen Hbuf.
  destruct (before_zero_split
              (take (Z.to_nat (Z.min length (Z.of_nat (List.length (c_bytes c)))))
                    (c_bytes c))) as (rest & Hsplit & Hz & Hrest).
  exists rest. split_and!; try done.
  by apply device_read_copied.
Qed.

(** The message "ab\0c" read with length 10 gives "ab" and returns 2. *)
Lemma zero_byte_termination_witness :
  ∃ rest,
    take (Z.to_nat (Z.min 10 (Z.of_nat (List.length (c_bytes zero_cell)))))
         (c_bytes zero_cell) = delivered zero_cell 10 ++ rest ∧
    (x00 ∉ delivered zero_cell 10) ∧
    (rest = [] ∨ ∃ rest', rest = x00 :: rest') ∧
    device_read (sink_of 10) 10 zero_queued =
      Ret (Z.of_nat (List.length (delivered zero_cell 10)), delivered zero_cell 10)
          (after_read zero_queued zero_cell []).
Proof.
  apply (zero_byte_termination zero_queued zero_cell [] (sink_of 10) 10).
  - queued_by_evaluation.
  - vm_compute. discriminate.
  - lia.
  - intros j Hj. apply bool_decide_eq_true_2. vm_compute in Hj. lia.
Defined.

Example zero_byte_termination_delivers :
  device_read (sink_of 10) 10 zero_queued
    = Ret (2, [x61; x62]) (after_read zero_queued zero_cell []).
Proof. vm_compute. reflexivity. Qed.

(** C6.  Capacity and byte-count invariant.  It does not hold in every
    state the driver reaches by completed calls.  On the loaded driver a
    resize to 8 bytes returns SUCCESS; two writers of 5 bytes each then
    both evaluate the condition of [wait_event] before either enqueues,
    and both writes return 5.  No call is in flight any more: the two
    messages are linked from [head] and [messages_size] is the sum of
    their lengths, 10, above the limit of 8.  When the second writer
    evaluates the condition after the first has enqueued, it sleeps. *)
Theorem capacity_overrun :
  overrun.1 = [Exited SUCCESS; Exited 5; Exited 5] ∧
  (∃ c1 c2, queued overrun.2 [c1; c2] ∧ c_bytes c1 = five ∧ c_bytes c2 = five) ∧
  queuep overrun.2 = Some (MessageQueue 17%N 20%N 10) ∧
  MAX_MESSAGES_SIZE overrun.2 = 8 ∧
  (run_threads [0; 1; 1; 2; 2]%nat squeeze loaded).1
    = [Exited SUCCESS; Exited 5; WriterWaits (source_of five) 5 all_ok].
Proof.
  split_and!; try (vm_compute; reflexivity).
  exists (Cell 17%N 18%N 19%N five), (Cell 20%N 21%N 22%N five).
  split_and!; [queued_by_evaluation|done|done].
Qed.

(** X18.  Capacity and byte-count invariant of calls that do not overlap.
    In every state the loaded driver reaches through calls of
    [device_write], [device_read] and [device_ioctl] that run one after
    the other, the cells linked from [head] form a chain ending in NULL,
    [messages_size] is the sum of their stored lengths, and it does not
    exceed [MAX_MESSAGES_SIZE]. *)
Theorem capacity_invariant s :
  reachable s →
  ∃ q cs,
    queuep s = Some q ∧
    head q = first_node cs ∧
    chain (heap s) cs ∧
    messages_size q = resident cs ∧
    messages_size q ≤ MAX_MESSAGES_SIZE s.
Proof.
  intros Hreach. destruct (reachable_settled s Hreach) as (cs & Hq & Hlim).
  exists (MessageQueue (first_node cs) (last_node cs) (resident cs)), cs.
  split_and!; try done.
  - apply (queued_queuep _ _ Hq).
  - apply (queued_chain _ _ Hq).
Qed.

Lemma capacity_invariant_witness :
  ∃ q cs,
    queuep hundred_queued = Some q ∧
    head q = first_node cs ∧
    chain (heap hundred_queued) cs ∧
    messages_size q = resident cs ∧
    messages_size q ≤ MAX_MESSAGES_SIZE hundred_queued.
Proof.
  apply (capacity_invariant hundred_queued).
  apply (reachable_perform loaded
           (Write (source_of (replicate 100 x61)) 100 all_ok)).
  - apply reachable_loaded.
  - vm_compute. split; [discriminate|reflexivity].
  - vm_compute. reflexivity.
Defined.

(** C7.  Enqueue atomicity.  On a well-formed queue [enqueue] returns,
    and there are two cases.  If all three allocations go through, it
    returns SUCCESS: a new cell with the characters of the message is
    linked behind the others, [rear] points to its node, whose [next] is
    NULL, and [messages_size] has grown by the length of the message.
    Otherwise it returns -1 and the state is the one before the call:
    head, rear, byte count and heap, so that nothing allocated on the way
    is left allocated. *)
Theorem enqueue_atomicity s q cs message g :
  queued s cs → queuep s = Some q →
  Z.of_nat (length message) ≤ MAX_MESSAGE_SIZE →
  (allocations_succeed g s (Z.of_nat (length message)) ∧
   ∃ c s' q',
     enqueue message (Z.of_nat (length message)) g s = Ret SUCCESS s' ∧
     c_bytes c = message ∧
     queued s' (cs ++ [c]) ∧
     queuep s' = Some q' ∧
     rear q' = c_node c ∧
     head q' = (if cs is [] then c_node c else head q) ∧
     heap s' !! c_node c = Some (Node (c_data c) NULL) ∧
     messages_size q' = messages_size q + Z.of_nat (length message)) ∨
  (¬ allocations_succeed g s (Z.of_nat (length message)) ∧
   enqueue message (Z.of_nat (length message)) g s = Ret (-1) s).
Proof.
  intros Hq Hqp Hmax.
  destruct (enqueue_run s cs message _ g Hq eq_refl Hmax)
    as (r & s' & Henq & [(-> & -> & Hno)|(-> & Hyes & c & Hc & Hq' & _ & _)]);
    [by right|left].
  split; [done|]. eexists c, s', _. split_and!; try done.
  - apply (queued_queuep _ _ Hq').
  - cbn. apply last_node_snoc.
  - cbn. rewrite first_node_snoc. rewrite (queued_queuep _ _ Hq) in Hqp.
    injection Hqp as <-. by destruct cs.
  - pose proof (queued_chain _ _ Hq') as Hchain. clear -Hchain.
    induction cs as [|c0 cs IH].
    + by destruct Hchain as (? & _).
    + apply IH. by destruct Hchain as (_ & _ & _ & ?).
  - cbn. rewrite resident_snoc, Hc. rewrite (queued_queuep _ _ Hq) in Hqp.
    by injection Hqp as <-.
Qed.

Lemma enqueue_atomicity_witness :
  (allocations_succeed no_characters ten_queued 1 ∧
   ∃ c s' q',
     enqueue [x61] 1 no_characters ten_queued = Ret SUCCESS s' ∧
     c_bytes c = [x61] ∧
     queued s' ([ten_cell] ++ [c]) ∧
     queuep s' = Some q' ∧
     rear q' = c_node c ∧
     head q' = head (MessageQueue 17%N 17%N 10) ∧
     heap s' !! c_node c = Some (Node (c_data c) NULL) ∧
     messages_size q' = messages_size (MessageQueue 17%N 17%N 10) + 1) ∨
  (¬ allocations_succeed no_characters ten_queued 1 ∧
   enqueue [x61] 1 no_characters ten_queued = Ret (-1) ten_queued).
Proof.
  apply (enqueue_atomicity ten_queued (MessageQueue 17%N 17%N 10) [ten_cell]
           [x61] no_characters).
  - queued_by_evaluation.
  - vm_compute. reflexivity.
  - vm_compute. discriminate.
Defined.

(** The third allocation failing, and all three going through. *)
Example enqueue_atomicity_failure :
  enqueue [x61] 1 no_characters ten_queued = Ret (-1) ten_queued.
Proof. vm_compute. reflexivity. Qed.

Example enqueue_atomicity_success :
  queuep (after (enqueue [x61] 1 all_ok ten_queued))
    = Some (MessageQueue 17%N 20%N 11).
Proof. vm_compute. reflexivity. Qed.

(** C8.  Concurrent admission.  The limit is 4096 bytes and the queue is
    empty.  Two writers of 4096 bytes each both evaluate the condition of
    [wait_event] before either enqueues: both are admitted, both writes
    return 4096, and 8192 bytes are queued under a limit of 4096.  When
    the second writer evaluates the condition after the first has
    enqueued, it sleeps. *)
Theorem admission_race :
  reachable tight ∧
  MAX_MESSAGES_SIZE tight = 4096 ∧
  queuep tight = Some (MessageQueue NULL NULL 0) ∧
  (interleave [0; 1; 0; 1]%nat two_writers tight).1
    = [Returned 4096; Returned 4096] ∧
  queuep (interleave [0; 1; 0; 1]%nat two_writers tight).2
    = Some (MessageQueue 17%N 20%N 8192) ∧
  MAX_MESSAGES_SIZE (interleave [0; 1; 0; 1]%nat two_writers tight).2 = 4096 ∧
  (interleave [0; 0; 1; 1]%nat two_writers tight).1
    = [Returned 4096; Waiting (source_of page) 4096 all_ok].
Proof.
  split_and!; try (vm_compute; reflexivity).
  apply (reachable_perform loaded (Ioctl 0 4096)).
  - apply reachable_loaded.
  - vm_compute. repeat split; discriminate.
  - vm_compute. reflexivity.
Qed.

(** C9.  A refused resize.  [device_ioctl] always returns, it has no
    [wait_event].  When it does not return SUCCESS, because the command is
    not the resize command or because the new limit is not above the bytes
    queued, it returns -EINVAL and the state is the one before the call:
    heap, head, rear, byte count and limit. *)
Theorem resize_rejection s q ioctl_num ioctl_param :
  queuep s = Some q →
  (∃ r s', device_ioctl ioctl_num ioctl_param s = Ret r s') ∧
  (¬ (ioctl_num = CHANGE_MAX_MESSAGES_SIZE ∧ ioctl_param > messages_size q) →
   device_ioctl ioctl_num ioctl_param s = Ret (- EINVAL) s) ∧
  (∀ r s', device_ioctl ioctl_num ioctl_param s = Ret r s' → r ≠ SUCCESS →
           r = - EINVAL ∧ s' = s).
Proof.
  intros Hq. rewrite (device_ioctl_run s q ioctl_num ioctl_param Hq).
  case_bool_decide as Hok.
  - split_and!; [by eexists _, _|done|]. by intros r s' [= <- <-].
  - split_and!; [by eexists _, _|done|]. by intros r s' [= <- <-].
Qed.

Lemma resize_rejection_witness :
  (∃ r s', device_ioctl 0 100 hundred_queued = Ret r s') ∧
  (¬ (0 = CHANGE_MAX_MESSAGES_SIZE ∧
      100 > messages_size (MessageQueue 17%N 17%N 100)) →
   device_ioctl 0 100 hundred_queued = Ret (- EINVAL) hundred_queued) ∧
  (∀ r s', device_ioctl 0 100 hundred_queued = Ret r s' → r ≠ SUCCESS →
           r = - EINVAL ∧ s' = hundred_queued).
Proof.
  apply (resize_rejection hundred_queued (MessageQueue 17%N 17%N 100) 0 100).
  vm_compute. reflexivity.
Defined.

Lemma is_queue_empty_run s q :
  queuep s = Some q →
  is_queue_empty s = Ret (if bool_decide (messages_size q = 0) then 1 else 0) s.
Proof.
  intros Hq. unfold is_queue_empty. cbn. rewrite Hq. by case_bool_decide.
Qed.

(** C10.  Emptiness by byte count.  [is_queue_empty] returns 1 exactly
    when [messages_size] is 0, and then every [device_read] sleeps.  After
    a [device_write] of 0 bytes to an empty queue has returned 0, the
    queue holds one cell without characters, [head] and [rear] point to
    its node, [messages_size] is still 0, [is_queue_empty] returns 1 and
    every [device_read] sleeps.  The message of no bytes stays first in
    the queue: once a later write of at least one byte has returned, the
    next [device_read] takes it off the queue and returns 0, and the later
    message is what remains. *)
Theorem empty_by_byte_count s buffer g s' :
  queued s [] →
  device_write buffer 0 g s = Ret 0 s' →
  (∀ t q, queuep t = Some q →
          (is_queue_empty t = Ret 1 t ↔ messages_size q = 0) ∧
          (messages_size q = 0 →
           ∀ sink length, device_read sink length t = Blocked)) ∧
  ∃ c, queued s' [c] ∧ c_bytes c = [] ∧ c_node c ≠ NULL ∧
       queuep s' = Some (MessageQueue (c_node c) (c_node c) 0) ∧
       is_queue_empty s' = Ret 1 s' ∧
       (∀ sink length, device_read sink length s' = Blocked) ∧
       ∀ buffer' n g' s'',
         0 < n → device_write buffer' n g' s' = Ret n s'' →
         ∃ c', queued s'' [c; c'] ∧ Z.of_nat (List.length (c_bytes c')) = n ∧
               ∀ sink length, 0 ≤ length →
                 device_read sink length s'' = Ret (0, []) (after_read s'' c [c']) ∧
                 queued (after_read s'' c [c']) [c'].
Proof.
  intros Hq Hw. split.
  - intros t q Hqt. split.
    + rewrite (is_queue_empty_run t q Hqt).
      case_bool_decide; split; try done.
    + intros Hz sink length. by apply (device_read_blocked t q).
  - destruct (device_write_run s [] buffer 0 g Hq)
      as [[_ Hw']|[_ [[Hw' _]|(m & c & s1 & Hget & _ & Hw' & Hc & Hq1 & _)]]];
      [unfold MAX_MESSAGE_SIZE; lia|rewrite Hw' in Hw..]; [done|done|].
    injection Hw as ->. cbn in Hget. injection Hget as <-.
    rewrite app_nil_l in Hq1. exists c.
    assert (Hqp : queuep s' = Some (MessageQueue (c_node c) (c_node c) 0)).
    { rewrite (queued_queuep _ _ Hq1). rewrite last_node_singleton.
      rewrite resident_cons, resident_nil, Hc. done. }
    split_and!; try done.
    + apply live_not_NULL.
      by destruct (Forall_addresses_cons _ _ _ (queued_live _ _ Hq1)) as (? & _).
    + by rewrite (is_queue_empty_run s' _ Hqp).
    + intros sink length. by apply (device_read_blocked s' _ sink length Hqp).
    + intros buffer' n g' s'' Hn Hw2.
      destruct (decide (n > MAX_MESSAGE_SIZE)) as [Hbig|Hsmall].
      { rewrite device_write_too_large in Hw2 by done.
        injection Hw2 as Hr _. unfold EINVAL in Hr. lia. }
      destruct (device_write_run s' [c] buffer' n g' Hq1 ltac:(lia))
        as [[_ Hw3]|[_ [[Hw3 _]|(m & c' & s2 & Hget & _ & Hw3 & Hc' & Hq2 & _)]]];
        rewrite Hw3 in Hw2; [done| |].
      { injection Hw2 as Hr _. unfold EFAULT in Hr. lia. }
      injection Hw2 as <-. exists c'.
      apply get_user_loop_length in Hget.
      assert (Hlen' : Z.of_nat (List.length (c_bytes c')) = n)
        by (rewrite Hc', Hget; lia).
      split_and!; [done|done|].
      intros sink length Hlen.
      assert (Hres : resident [c; c'] ≠ 0).
      { rewrite !resident_cons, resident_nil, Hc. cbn [List.length]. lia. }
      split; [|by apply queued_after_read].
      rewrite (device_read_run s2 c [c'] sink length Hq2 Hres Hlen), Hc.
      cbn [List.length]. replace (Z.min length (Z.of_nat 0)) with 0 by lia.
      done.
Qed.

Lemma empty_by_byte_count_witness :
  (∀ t q, queuep t = Some q →
          (is_queue_empty t = Ret 1 t ↔ messages_size q = 0) ∧
          (messages_size q = 0 →
           ∀ sink length, device_read sink length t = Blocked)) ∧
  ∃ c, queued empty_sent [c] ∧ c_bytes c = [] ∧ c_node c ≠ NULL ∧
       queuep empty_sent = Some (MessageQueue (c_node c) (c_node c) 0) ∧
       is_queue_empty empty_sent = Ret 1 empty_sent ∧
       (∀ sink length, device_read sink length empty_sent = Blocked) ∧
       ∀ buffer' n g' s'',
         0 < n → device_write buffer' n g' empty_sent = Ret n s'' →
         ∃ c', queued s'' [c; c'] ∧ Z.of_nat (List.length (c_bytes c')) = n ∧
               ∀ sink length, 0 ≤ length →
                 device_read sink length s'' = Ret (0, []) (after_read s'' c [c']) ∧
                 queued (after_read s'' c [c']) [c'].
Proof.
  apply (empty_by_byte_count loaded (source_of []) all_ok empty_sent).
  - queued_by_evaluation.
  - vm_compute. reflexivity.
Defined.

(** A message of no bytes is written to the empty queue and a message of
    one byte behind it: the next [device_read] returns 0, having taken the
    message of no bytes off the queue, and the one after returns the
    byte. *)
Lemma empty_by_byte_count_counterexample :
  value (device_write (source_of []) 0 all_ok loaded) = Some 0 ∧
  value (device_write (source_of [x61]) 1 all_ok empty_sent) = Some 1 ∧
  value (device_read (sink_of 8) 8 letter_behind_empty) = Some (0, []) ∧
  queuep (after (device_read (sink_of 8) 8 letter_behind_empty))
    = Some (MessageQueue 19%N 19%N 1) ∧
  value (device_read (sink_of 8) 8
           (after (device_read (sink_of 8) 8 letter_behind_empty)))
    = Some (1, [x61]).
Proof. split_and!; vm_compute; reflexivity. Qed.

(** ** Nothing but the queue is allocated *)

Lemma loaded_tidy : tidy loaded [].
Proof. split; [apply loaded_queued|]. vm_compute. reflexivity. Qed.

Lemma after_read_tidy s c cs : tidy s (c :: cs) → tidy (after_read s c cs) cs.
Proof.
  intros [Hq Hdom]. split; [by apply queued_after_read|].
  pose proof (queued_NoDup _ _ Hq) as Hnd.
  pose proof (queued_live _ _ Hq) as Hlive.
  destruct (queued_chain _ _ Hq) as (_ & _ & Hb & _).
  apply Forall_addresses_cons in Hlive as (_ & _ & _ & Hlive).
  pose proof (buffer_apart _ c cs Hb Hnd Hlive) as Hbuf.
  apply NoDup_addresses_cons in Hnd as (_ & _ & Hn & Hd & _).
  unfold after_read. cbn [heap]. rewrite !dom_delete_L, Hdom.
  apply set_eq. intros x.
  rewrite !elem_of_difference, !elem_of_list_to_set, elem_of_addresses_cons,
    !elem_of_singleton.
  split.
  - intros [[[Hx ?] ?] ?]. destruct Hx as [->|[->|[[_ ->]|Hx]]]; done.
  - intros Hx. split_and!; [tauto|..]; by intros ->.
Qed.

Lemma perform_tidy s cs op s' :
  tidy s cs → in_range op → perform op s = Some s' → ∃ cs', tidy s' cs'.
Proof.
  intros [Hq Hdom] Hrange Hperf.
  destruct op as [buffer length g|buffer length|num param];
    cbn [perform in_range] in *.
  - destruct (decide (length > MAX_MESSAGE_SIZE)) as [Hbig|Hsmall].
    + rewrite device_write_too_large in Hperf by done.
      injection Hperf as <-. by exists cs.
    + destruct (device_write_run s cs buffer length g Hq ltac:(lia))
        as [[_ Hw]|[_ [[Hw _]|(m & c & s1 & _ & _ & Hw & _ & Hq1 & _ & Hdom1 & _)]]];
        rewrite Hw in Hperf; [done|injection Hperf as <-; by exists cs|].
      injection Hperf as <-. exists (cs ++ [c]). split; [done|].
      rewrite Hdom1, Hdom, addresses_snoc, <- addresses_singleton,
        list_to_set_app_L.
      apply (comm_L (∪)).
  - destruct (decide (resident cs = 0)) as [Hz|Hnz].
    + rewrite (device_read_blocked s _ buffer length (queued_queuep _ _ Hq) Hz)
        in Hperf. done.
    + destruct cs as [|c cs]; [done|].
      destruct (device_read_returns s c cs buffer length Hq Hnz)
        as [r Hread]; [lia|].
      rewrite Hread in Hperf. injection Hperf as <-.
      exists cs. by apply after_read_tidy.
  - rewrite (device_ioctl_run s _ num param (queued_queuep _ _ Hq)) in Hperf.
    case_bool_decide as Hok.
    + injection Hperf as <-. exists cs. destruct s as [h q max].
      split; [|done].
      apply (queued_limit _ _ param Hq).
    + injection Hperf as <-. by exists cs.
Qed.


(** The cells are determined by the state. *)
Lemma chain_unique h cs : ∀ cs',
  chain h cs → chain h cs' →
  Forall (λ p, ZERO_OR_NULL_PTR p = false) (addresses cs) →
  Forall (λ p, ZERO_OR_NULL_PTR p = false) (addresses cs') →
  first_node cs = first_node cs' → cs = cs'.
Proof.
  induction cs as [|c cs IH]; intros [|c' cs'] Hc Hc' Hlive Hlive' Hfirst;
    try done.
  - symmetry in Hfirst. by apply first_node_NULL in Hfirst.
  - by apply first_node_NULL in Hfirst.
  - destruct Hc as (Hn & Hd & Hb & Hcs). destruct Hc' as (Hn' & Hd' & Hb' & Hcs').
    cbn in Hfirst.
    apply Forall_addresses_cons in Hlive as (_ & _ & _ & Hlive).
    apply Forall_addresses_cons in Hlive' as (_ & _ & _ & Hlive').
    rewrite <- Hfirst, Hn in Hn'. injection Hn' as Hdata Hnext.
    rewrite <- Hdata, Hd in Hd'. injection Hd' as Hbuf Hlen.
    assert (Hbytes : c_bytes c = c_bytes c').
    { unfold stored in Hb, Hb'.
      destruct (c_bytes c) as [|b0 m], (c_bytes c') as [|b0' m'];
        try done; try (cbn in Hlen; lia).
      rewrite <- Hbuf, Hb in Hb'. congruence. }
    f_equal.
    + destruct c, c'. cbn in *. congruence.
    + by apply IH.
Qed.

Lemma queued_unique s cs cs' : queued s cs → queued s cs' → cs = cs'.
Proof.
  intros Hq Hq'. apply (chain_unique (heap s)).
  - apply (queued_chain _ _ Hq).
  - apply (queued_chain _ _ Hq').
  - apply (queued_live _ _ Hq).
  - apply (queued_live _ _ Hq').
  - pose proof (queued_queuep _ _ Hq) as H1.
    rewrite (queued_queuep _ _ Hq') in H1. by injection H1.
Qed.

Lemma reachable_tidy s :
  reachable s → ∃ cs, tidy s cs ∧ resident cs ≤ MAX_MESSAGES_SIZE s.
Proof.
  induction 1 as [|s op s' _ (cs & Ht & Hlim) Hrange Hperf].
  - exists []. split; [apply loaded_tidy|]. vm_compute. discriminate.
  - destruct (perform_tidy s cs op s' Ht Hrange Hperf) as [cs1 Ht1].
    destruct (perform_settled s cs op s' (conj (proj1 Ht) Hlim) Hrange Hperf)
      as (cs2 & Hq2 & Hlim2).
    exists cs1. split; [done|].
    by rewrite (queued_unique s' cs1 cs2 (proj1 Ht1) Hq2).
Qed.

(** Two allocations per message, and one more for each message that has
    bytes. *)
Lemma length_live_buffer c :
  length (live_buffer c) = if bool_decide (c_bytes c = []) then 0%nat else 1%nat.
Proof. unfold live_buffer. by destruct (c_bytes c). Qed.

Lemma length_addresses cs :
  length (addresses cs)
  = (2 * length cs + length (filter (λ c, c_bytes c ≠ []) cs))%nat.
Proof.
  induction cs as [|c cs IH]; [done|].
  rewrite addresses_cons, filter_cons. cbn [length]. rewrite length_app, IH.
  unfold live_buffer. destruct (c_bytes c) eqn:Hc.
  - rewrite decide_False by (intros Hne; by apply Hne). cbn [length]. lia.
  - rewrite decide_True by done. cbn [length]. lia.
Qed.

(** ** release_queue *)

Arguments release_iteration : simpl never.

(** An iteration that completes frees the node it started from and
    allocates nothing. *)
Lemma release_iteration_shrinks tmp_node iterator_node s v s' :
  release_iteration tmp_node iterator_node s = Ret v s' →
  tmp_node ∈ dom (heap s) ∧ (tmp_node ∉ dom (heap s')) ∧
  dom (heap s') ⊆ dom (heap s) ∧
  queuep s' = queuep s ∧ MAX_MESSAGES_SIZE s' = MAX_MESSAGES_SIZE s.
Proof.
  destruct s as [h q max]. unfold release_iteration. cbn.
  repeat (match goal with
          | |- context [ZERO_OR_NULL_PTR ?p] =>
            destruct (ZERO_OR_NULL_PTR p) eqn:?; cbn; try done
          | |- context [match ?m !! ?p with _ => _ end] =>
            destruct (m !! p) as [[]|] eqn:?; cbn; try done
          | |- context [bool_decide ?P] =>
            destruct (bool_decide P) eqn:?; cbn; try done
          end).
  all: intros [= <- <-]; cbn [heap queuep MAX_MESSAGES_SIZE].
  all: rewrite ?dom_delete_L.
  all: split_and!; try done.
  all: try (apply elem_of_dom; eauto).
  all: clear; set_unfold; tauto.
Qed.

Lemma release_loop_fuel fuel : ∀ tmp_node iterator_node s s',
  (size (heap s) < fuel)%nat →
  release_loop fuel tmp_node iterator_node s ≠ Ret false s'.
Proof.
  induction fuel as [|fuel IH]; intros tmp_node iterator_node s s' Hfuel; [lia|].
  cbn [release_loop]. case_bool_decide; [done|]. cbn.
  destruct (release_iteration tmp_node iterator_node s) as [v s1| |] eqn:Hit;
    [|done..].
  apply release_iteration_shrinks in Hit as (Hin & Hout & Hsub & _).
  apply IH.
  assert (dom (heap s1) ⊂ dom (heap s)) as Hlt%subset_size.
  { split; [done|]. intros Hsup. apply Hout, Hsup, Hin. }
  rewrite !size_dom in Hlt. lia.
Qed.

Lemma release_loop_chain cs : ∀ fuel h q max,
  chain h cs → NoDup (addresses cs) →
  Forall (λ p, ZERO_OR_NULL_PTR p = false) (addresses cs) →
  (length cs ≤ fuel)%nat →
  ∃ h', release_loop fuel (first_node cs) (first_node cs) (State h q max)
          = Ret true (State h' q max) ∧
        ∀ p, h' !! p = if decide (p ∈ addresses cs) then None else h !! p.
Proof.
  induction cs as [|c cs IH]; intros fuel h q max Hc Hnd Hlive Hfuel.
  - exists h. split.
    + by destruct fuel.
    + intros p. by rewrite decide_False by apply not_elem_of_nil.
  - destruct fuel as [|fuel]; [cbn in Hfuel; lia|].
    destruct Hc as (Hn & Hd & Hb & Hcs).
    pose proof (Forall_addresses_cons _ _ _ Hlive) as (Hln & Hld & Hlb & Hlive').
    pose proof (buffer_apart h c cs Hb Hnd Hlive') as Hbuf.
    pose proof (NoDup_addresses_cons _ _ Hnd) as (Hnd0 & Hb0 & Hn0 & Hd0 & Hnd').
    assert (Hnn : c_node c ≠ NULL) by (by apply live_not_NULL).
    assert (Hdn : c_data c ≠ NULL) by (by apply live_not_NULL).
    assert (H1 : c_data c ≠ c_node c) by congruence.
    set (h3 := delete (c_node c) (delete (c_data c)
                 (if ZERO_OR_NULL_PTR (c_buf c) then h else delete (c_buf c) h))).
    assert (Hh3 : ∀ p, h3 !! p = if decide (p ∈ addresses [c]) then None
                                 else h !! p).
    { intros p. unfold h3. rewrite addresses_singleton.
      unfold stored in Hb. unfold live_buffer.
      destruct (c_bytes c) as [|b0 m] eqn:Hbytes.
      - rewrite Hb, ZERO_OR_NULL_PTR_ZERO_SIZE_PTR. case_decide as Hp.
        + rewrite !elem_of_cons, elem_of_nil in Hp.
          rewrite !lookup_delete_None. destruct Hp as [->|[->|[]]]; auto.
        + rewrite !elem_of_cons, elem_of_nil in Hp.
          rewrite !lookup_delete_ne; [done|..]; intros <-; tauto.
      - rewrite (Hlb ltac:(done)). case_decide as Hp.
        + rewrite !elem_of_cons, elem_of_nil in Hp.
          rewrite !lookup_delete_None. destruct Hp as [->|[->|[->|[]]]]; auto.
        + rewrite !elem_of_cons, elem_of_nil in Hp.
          rewrite !lookup_delete_ne; [done|..]; intros <-; tauto. }
    assert (Hsame : ∀ p, p ∈ addresses cs → h3 !! p = h !! p).
    { intros p Hp. rewrite Hh3, decide_False; [done|].
      rewrite addresses_singleton, !elem_of_cons, elem_of_live_buffer.
      intros [->|[->|[_ ->]]]; done. }
    destruct (IH fuel h3 q max) as (h' & Hrun & Hh'); try done.
    { by apply (chain_frame h). }
    { cbn in Hfuel. lia. }
    exists h'. split.
    + cbn [release_loop first_node]. unfold release_iteration.
      unfold h3 in Hrun. clear Hh3 Hsame. clearbody h3.
      unfold stored in Hb. destruct (c_bytes c) as [|b0 m] eqn:Hbytes.
      * rewrite Hb in Hd, Hrun. rewrite ZERO_OR_NULL_PTR_ZERO_SIZE_PTR in Hrun.
        exec. rewrite (bool_decide_eq_true_2 (ZERO_SIZE_PTR ≠ NULL)) by done.
        exec. exact Hrun.
      * destruct (Hb0 ltac:(done)) as (Hbn & Hbd & _).
        specialize (Hlb ltac:(done)). rewrite Hlb in Hrun.
        exec. rewrite (bool_decide_eq_true_2 (c_buf c ≠ NULL))
          by (by apply live_not_NULL).
        exec. exact Hrun.
    + intros p. rewrite Hh', Hh3.
      assert (Hiff : p ∈ addresses (c :: cs)
                     ↔ p ∈ addresses [c] ∨ p ∈ addresses cs).
      { rewrite addresses_cons, addresses_singleton, !elem_of_cons, elem_of_app.
        tauto. }
      repeat case_decide; try done; exfalso; tauto.
Qed.

(** ** Further properties of the driver *)

Lemma reachable_footprint s :
  reachable s →
  ∃ cs, queued s cs ∧ dom (heap s) = list_to_set (addresses cs) ∧
        size (heap s) = length (addresses cs).
Proof.
  intros Hreach. destruct (reachable_tidy s Hreach) as (cs & [Hq Hdom] & _).
  exists cs. pose proof (queued_NoDup _ _ Hq) as Hnd. split_and!; try done.
  by rewrite <- size_dom, Hdom, size_list_to_set.
Qed.



(** X2.  Shape of the queue head.  Between two calls [head] is NULL
    exactly when [rear] is, an empty list has no bytes counted, and the
    node [rear] points to is live and has a NULL [next]. *)
Theorem queue_shape s :
  reachable s →
  ∃ q, queuep s = Some q ∧
       (head q = NULL ↔ rear q = NULL) ∧
       (head q = NULL → messages_size q = 0) ∧
       (rear q ≠ NULL → ∃ d, heap s !! rear q = Some (Node d NULL)).
Proof.
  intros Hreach. destruct (reachable_tidy s Hreach) as (cs & [Hq _] & _).
  eexists. split; [apply (queued_queuep _ _ Hq)|]. cbn.
  pose proof (queued_live _ _ Hq) as Hnull.
  assert (Hhead : first_node cs = NULL → cs = []) by apply (first_node_NULL cs Hnull).
  split_and!.
  - split.
    + intros Heq. by rewrite (Hhead Heq).
    + intros Heq. by rewrite (last_node_NULL cs Hnull Heq).
  - intros Heq. by rewrite (Hhead Heq).
  - intros Hne. apply chain_last; [apply (queued_chain _ _ Hq)|].
    by intros ->.
Qed.

Lemma queue_shape_witness :
  ∃ q, queuep hundred_queued = Some q ∧
       (head q = NULL ↔ rear q = NULL) ∧
       (head q = NULL → messages_size q = 0) ∧
       (rear q ≠ NULL → ∃ d, heap hundred_queued !! rear q = Some (Node d NULL)).
Proof.
  apply (queue_shape hundred_queued).
  apply (reachable_perform loaded
           (Write (source_of (replicate 100 x61)) 100 all_ok)).
  - apply reachable_loaded.
  - vm_compute. split; [discriminate|reflexivity].
  - vm_compute. reflexivity.
Defined.

(** X3.  No invalid dereference.  Between two calls, no [device_write],
    [device_read] or [device_ioctl] with arguments of the C types ends in
    a NULL or dangling dereference: each returns or sleeps. *)
Theorem no_oops s op :
  reachable s → in_range op → ¬ crashes op s.
Proof.
  intros Hreach Hrange.
  destruct (reachable_tidy s Hreach) as (cs & [Hq _] & _).
  destruct op as [buffer length g|buffer length|num param];
    cbn [crashes in_range] in *.
  - destruct (decide (length > MAX_MESSAGE_SIZE)) as [Hbig|Hsmall].
    + by rewrite device_write_too_large.
    + destruct (device_write_run s cs buffer length g Hq ltac:(lia))
        as [[_ ->]|[_ [[-> _]|(m & c & s1 & _ & _ & -> & _)]]]; done.
  - destruct (decide (resident cs = 0)) as [Hz|Hnz].
    + by rewrite (device_read_blocked s _ buffer length (queued_queuep _ _ Hq) Hz).
    + destruct cs as [|c cs]; [done|].
      destruct (device_read_returns s c cs buffer length Hq Hnz)
        as [r ->]; [lia|done].
  - rewrite (device_ioctl_run s _ num param (queued_queuep _ _ Hq)).
    by case_bool_decide.
Qed.

Lemma no_oops_witness :
  ¬ crashes (Read (sink_of 0) 7) hundred_queued.
Proof.
  apply (no_oops hundred_queued (Read (sink_of 0) 7)).
  - apply (reachable_perform loaded
             (Write (source_of (replicate 100 x61)) 100 all_ok)).
    + apply reachable_loaded.
    + vm_compute. split; [discriminate|reflexivity].
    + vm_compute. reflexivity.
  - vm_compute. split; [discriminate|reflexivity].
Defined.

(** X4.  Teardown.  Called between two calls of the file operations, with
    at least as many iterations allowed as there are live allocations,
    [char_device_driver_exit] completes its loop and leaves nothing
    allocated and [queuep] NULL; the limit keeps its last value. *)
Theorem exit_frees_everything s fuel :
  reachable s → (size (heap s) ≤ fuel)%nat →
  char_device_driver_exit fuel s
    = Ret true (State ∅ None (MAX_MESSAGES_SIZE s)).
Proof.
  intros Hreach Hfuel.
  destruct (reachable_footprint s Hreach) as (cs & Hq & Hdom & Hsize).
  destruct s as [h q max]. cbn [heap MAX_MESSAGES_SIZE] in *.
  pose proof (queued_queuep _ _ Hq) as Hqp. cbn in Hqp.
  rewrite length_addresses in Hsize.
  destruct (release_loop_chain cs fuel h q max (queued_chain _ _ Hq)
              (queued_NoDup _ _ Hq) (queued_live _ _ Hq) ltac:(lia))
    as (h' & Hrun & Hh').
  assert (h' = ∅) as ->.
  { apply map_eq. intros p. rewrite Hh', lookup_empty. case_decide; [done|].
    apply not_elem_of_dom. rewrite Hdom. by rewrite elem_of_list_to_set. }
  unfold char_device_driver_exit, release_queue. cbn.
  rewrite Hqp in Hrun |- *. cbn. by rewrite Hrun.
Qed.

Lemma exit_frees_everything_witness :
  char_device_driver_exit 6 two_letters_sent
    = Ret true (State ∅ None (MAX_MESSAGES_SIZE two_letters_sent)).
Proof.
  apply (exit_frees_everything two_letters_sent 6).
  - apply (reachable_perform
             (after (device_write (source_of [x61]) 1 all_ok loaded))
             (Write (source_of [x62; x63]) 2 all_ok)).
    + apply (reachable_perform loaded (Write (source_of [x61]) 1 all_ok)).
      * apply reachable_loaded.
      * vm_compute. split; [discriminate|reflexivity].
      * vm_compute. reflexivity.
    + vm_compute. split; [discriminate|reflexivity].
    + vm_compute. reflexivity.
  - vm_compute. repeat constructor.
Defined.

Lemma release_iteration_returns tmp_node iterator_node s :
  release_iteration tmp_node iterator_node s ≠ Blocked.
Proof.
  destruct s as [h q max]. unfold release_iteration. cbn.
  repeat (match goal with
          | |- context [ZERO_OR_NULL_PTR ?p] =>
            destruct (ZERO_OR_NULL_PTR p) eqn:?; cbn; try done
          | |- context [match ?m !! ?p with _ => _ end] =>
            destruct (m !! p) as [[]|] eqn:?; cbn; try done
          | |- context [bool_decide ?P] =>
            destruct (bool_decide P) eqn:?; cbn; try done
          end).
Qed.

Lemma release_loop_returns fuel : ∀ tmp_node iterator_node s,
  release_loop fuel tmp_node iterator_node s ≠ Blocked.
Proof.
  induction fuel as [|fuel IH]; intros tmp_node iterator_node s;
    cbn [release_loop]; case_bool_decide; try done. cbn.
  destruct (release_iteration tmp_node iterator_node s) as [v s1| |] eqn:Hit;
    [apply IH| |done].
  by apply release_iteration_returns in Hit.
Qed.

(** X5.  The loop of [release_queue] ends.  In any state, well-formed or
    not, an iteration that completes frees the node it is at, so the loop
    cannot take more iterations than there are live allocations: with
    more iterations allowed than that, [release_queue] does not stop for
    want of iterations, and it does not sleep.  It dereferences a pointer
    that is not live, or it returns with the queue freed. *)
Theorem release_queue_terminates s fuel :
  (size (heap s) < fuel)%nat →
  release_queue fuel s = Oops ∨
  ∃ s', release_queue fuel s = Ret true s' ∧ queuep s' = None.
Proof.
  intros Hfuel. unfold release_queue. cbn.
  destruct (queuep s) as [q|] eqn:Hq; [|right; by exists s]. cbn.
  destruct (release_loop fuel (head q) (head q) s) as [[] s1| |] eqn:Hloop.
  - right. cbn. by eexists.
  - by apply release_loop_fuel in Hloop.
  - by apply release_loop_returns in Hloop.
  - by left.
Qed.

Lemma release_queue_terminates_witness :
  release_queue 7 two_letters_sent = Oops ∨
  ∃ s', release_queue 7 two_letters_sent = Ret true s' ∧ queuep s' = None.
Proof.
  apply (release_queue_terminates two_letters_sent 7).
  vm_compute. repeat constructor.
Defined.

Lemma reachable_queued s :
  reachable s → ∃ cs, queued s cs ∧ resident cs ≤ MAX_MESSAGES_SIZE s.
Proof.
  intros Hreach. destruct (reachable_tidy s Hreach) as (cs & [Hq _] & Hlim).
  by exists cs.
Qed.

(** X6.  What a write returns.  Between two calls, a [device_write] that
    returns has either returned [length], and then the byte count has
    grown by exactly [length], a node and a descriptor have been
    allocated, and a character array too unless [length] is 0, and the
    limit is unchanged; or it has returned -EINVAL or -EFAULT, and then
    the state is the one before the call.  It never returns a partial
    count. *)
Theorem write_all_or_nothing s buffer length g r s' :
  reachable s → 0 ≤ length →
  device_write buffer length g s = Ret r s' →
  (r = length ∧
   (∃ q q', queuep s = Some q ∧ queuep s' = Some q' ∧
            messages_size q' = messages_size q + length) ∧
   size (heap s')
   = (size (heap s) + if bool_decide (length = 0%Z) then 2 else 3)%nat ∧
   MAX_MESSAGES_SIZE s' = MAX_MESSAGES_SIZE s) ∨
  ((r = - EINVAL ∨ r = - EFAULT) ∧ s' = s).
Proof.
  intros Hreach Hlen Hw.
  destruct (reachable_footprint s Hreach) as (cs & Hq & Hdom & Hsize).
  destruct (decide (length > MAX_MESSAGE_SIZE)) as [Hbig|Hsmall].
  { rewrite device_write_too_large in Hw by done. injection Hw as <- <-.
    right. auto. }
  destruct (device_write_run s cs buffer length g Hq ltac:(lia))
    as [[_ Hw']|[_ [[Hw' _]|(m & c & s1 & Hget & _ & Hw' & Hc & Hq1 & Hmax & Hdom1 & _)]]];
    rewrite Hw' in Hw; [done| |].
  { injection Hw as <- <-. right. auto. }
  injection Hw as <- <-. left.
  apply get_user_loop_length in Hget. split_and!; try done.
  - eexists _, _. split_and!;
      [apply (queued_queuep _ _ Hq)|apply (queued_queuep _ _ Hq1)|].
    cbn. rewrite resident_snoc, Hc. lia.
  - rewrite <- (size_dom (heap s1)), Hdom1, Hdom, (comm_L (∪)),
      <- list_to_set_app_L, addresses_singleton, <- addresses_snoc.
    rewrite size_list_to_set by apply (queued_NoDup _ _ Hq1).
    rewrite Hsize, addresses_snoc, length_app. cbn [List.length].
    rewrite length_live_buffer, Hc.
    destruct m; cbn [List.length] in Hget.
    + rewrite !bool_decide_eq_true_2 by (done || lia). done.
    + rewrite !bool_decide_eq_false_2 by (done || lia). lia.
Qed.

Lemma write_all_or_nothing_witness :
  (100 = 100 ∧
   (∃ q q', queuep loaded = Some q ∧ queuep hundred_queued = Some q' ∧
            messages_size q' = messages_size q + 100) ∧
   size (heap hundred_queued)
   = (size (heap loaded) + if bool_decide (100%Z = 0%Z) then 2 else 3)%nat ∧
   MAX_MESSAGES_SIZE hundred_queued = MAX_MESSAGES_SIZE loaded) ∨
  ((100 = - EINVAL ∨ 100 = - EFAULT) ∧ hundred_queued = loaded).
Proof.
  apply (write_all_or_nothing loaded (source_of (replicate 100 x61)) 100 all_ok).
  - apply reachable_loaded.
  - lia.
  - vm_compute. reflexivity.
Defined.

(** X7.  When a write sleeps.  Between two calls, a [device_write] sleeps
    exactly when its length is at most 4096 and the byte count plus the
    length, as an [unsigned long], exceeds the limit.  Neither the user's
    buffer nor the allocator is consulted before: a write to a full queue
    sleeps even when its buffer is not readable. *)
Theorem write_sleeps_iff s q buffer length g :
  reachable s → queuep s = Some q → 0 ≤ length →
  device_write buffer length g s = Blocked ↔
  length ≤ MAX_MESSAGE_SIZE ∧
  to_ulong (messages_size q + length) > MAX_MESSAGES_SIZE s.
Proof.
  intros Hreach Hqp Hlen.
  destruct (reachable_queued s Hreach) as (cs & Hq & _).
  rewrite (queued_queuep _ _ Hq) in Hqp. injection Hqp as <-. cbn.
  destruct (decide (length > MAX_MESSAGE_SIZE)) as [Hbig|Hsmall].
  { rewrite device_write_too_large by done. split; [done|lia]. }
  destruct (device_write_run s cs buffer length g Hq ltac:(lia))
    as [[Hfull ->]|[Hroom [[-> _]|(m & c & s1 & _ & _ & -> & _)]]].
  - split; [|done]. intros _. split; [lia|done].
  - split; [done|lia].
  - split; [done|lia].
Qed.

(** The limit lowered to 11 with 10 bytes queued: a write of 2 bytes from
    an unreadable buffer sleeps. *)
Lemma write_sleeps_iff_witness :
  device_write (λ _, None) 2 all_ok (after (device_ioctl 0 11 ten_queued))
    = Blocked ↔
  2 ≤ MAX_MESSAGE_SIZE ∧
  to_ulong (messages_size (MessageQueue 17%N 17%N 10) + 2)
    > MAX_MESSAGES_SIZE (after (device_ioctl 0 11 ten_queued)).
Proof.
  apply (write_sleeps_iff (after (device_ioctl 0 11 ten_queued))
           (MessageQueue 17%N 17%N 10) (λ _, None) 2 all_ok).
  - apply (reachable_perform ten_queued (Ioctl 0 11)).
    + apply (reachable_perform loaded (Write (source_of ten_bytes) 10 all_ok)).
      * apply reachable_loaded.
      * vm_compute. split; [discriminate|reflexivity].
      * vm_compute. reflexivity.
    + vm_compute. repeat split; discriminate.
    + vm_compute. reflexivity.
  - vm_compute. reflexivity.
  - lia.
Defined.

(** X8.  When a read sleeps.  Between two calls, a [device_read] sleeps
    exactly when the byte count is 0, whatever its buffer and length, and
    otherwise it returns. *)
Theorem read_sleeps_iff s q buffer length :
  reachable s → queuep s = Some q → 0 ≤ length →
  (device_read buffer length s = Blocked ↔ messages_size q = 0) ∧
  (messages_size q ≠ 0 → ∃ r s', device_read buffer length s = Ret r s').
Proof.
  intros Hreach Hqp Hlen.
  destruct (reachable_queued s Hreach) as (cs & Hq & _).
  rewrite (queued_queuep _ _ Hq) in Hqp. injection Hqp as <-. cbn.
  destruct (decide (resident cs = 0)) as [Hz|Hnz].
  - rewrite (device_read_blocked s _ buffer length (queued_queuep _ _ Hq) Hz).
    done.
  - destruct cs as [|c cs]; [done|].
    destruct (device_read_returns s c cs buffer length Hq Hnz Hlen) as [r ->].
    split; [done|]. intros _. by eexists _, _.
Qed.

Lemma read_sleeps_iff_witness :
  (device_read (sink_of 0) 3 ten_queued = Blocked
   ↔ messages_size (MessageQueue 17%N 17%N 10) = 0) ∧
  (messages_size (MessageQueue 17%N 17%N 10) ≠ 0 →
   ∃ r s', device_read (sink_of 0) 3 ten_queued = Ret r s').
Proof.
  apply (read_sleeps_iff ten_queued (MessageQueue 17%N 17%N 10) (sink_of 0) 3).
  - apply (reachable_perform loaded (Write (source_of ten_bytes) 10 all_ok)).
    + apply reachable_loaded.
    + vm_compute. split; [discriminate|reflexivity].
    + vm_compute. reflexivity.
  - vm_compute. reflexivity.
  - lia.
Defined.

(** The loop stops at the first offset [put_user] cannot write. *)
Lemma read_loop_faulted buffer i tmp_length tmp_message k :
  (tmp_length ≤ length tmp_message)%nat →
  (k < length (before_zero (take tmp_length tmp_message)))%nat →
  (∀ j, (j < k)%nat → buffer (i + j)%nat = true) →
  buffer (i + k)%nat = false →
  read_loop buffer i tmp_length tmp_message =
    Faulted (take k (before_zero (take tmp_length tmp_message))).
Proof.
  revert i tmp_message k.
  induction tmp_length as [|n IH]; intros i [|c m] k Hlen Hk Hbuf Hbad;
    try (cbn in *; lia).
  cbn [read_loop take before_zero] in *.
  destruct (Byte.eqb c x00) eqn:Hc; [cbn in Hk; lia|].
  destruct k as [|k].
  - rewrite Nat.add_0_r in Hbad. by rewrite Hbad.
  - assert (buffer i = true) as ->
      by (rewrite <- (Nat.add_0_r i); apply Hbuf; lia).
    rewrite (IH (S i) m k).
    + done.
    + cbn in Hlen. lia.
    + cbn in Hk. lia.
    + intros j Hj. replace (S i + j)%nat with (i + S j)%nat by lia.
      apply Hbuf. lia.
    + by replace (S i + k)%nat with (i + S k)%nat by lia.
Qed.

(** X9.  A read into a bad buffer loses the message.  When [put_user]
    fails at offset [k], after [k] bytes have been copied, [device_read]
    returns -EFAULT; the message has been taken off the queue and freed
    all the same, so the bytes not copied are lost. *)
Theorem read_fault_loses_message s c cs buffer length k :
  queued s (c :: cs) → resident (c :: cs) ≠ 0 → 0 ≤ length →
  (k < List.length (delivered c length))%nat →
  (∀ j, (j < k)%nat → buffer j = true) →
  buffer k = false →
  device_read buffer length s =
    Ret (- EFAULT, take k (delivered c length)) (after_read s c cs) ∧
  queued (after_read s c cs) cs ∧
  heap (after_read s c cs) !! c_buf c = None.
Proof.
  intros Hq Hres Hlen Hk Hbuf Hbad.
  rewrite (device_read_run s c cs buffer length Hq Hres Hlen).
  rewrite (read_loop_faulted buffer 0 _ (c_bytes c) k); try done; [|lia].
  split_and!; [done|by apply queued_after_read|].
  unfold after_read. cbn [heap].
  destruct (decide (c_data c = c_buf c)) as [->|Hne].
  - apply lookup_delete_eq.
  - rewrite lookup_delete_ne by done. apply lookup_delete_eq.
Qed.

Lemma read_fault_loses_message_witness :
  device_read (sink_of 4) 10 ten_queued =
    Ret (- EFAULT, take 4 (delivered ten_cell 10)) (after_read ten_queued ten_cell []) ∧
  queued (after_read ten_queued ten_cell []) [] ∧
  heap (after_read ten_queued ten_cell []) !! c_buf ten_cell = None.
Proof.
  apply (read_fault_loses_message ten_queued ten_cell [] (sink_of 4) 10 4).
  - queued_by_evaluation.
  - vm_compute. discriminate.
  - lia.
  - vm_compute. repeat constructor.
  - intros j Hj. apply bool_decide_eq_true_2. exact Hj.
  - vm_compute. reflexivity.
Defined.

Lemma before_zero_length l : (length (before_zero l) ≤ length l)%nat.
Proof.
  induction l as [|c l IH]; [done|]. cbn [before_zero].
  destruct (Byte.eqb c x00); cbn; lia.
Qed.

(** What the loop has written when it ends, whatever the buffer. *)
Lemma read_loop_out buffer i tmp_length tmp_message :
  (tmp_length ≤ length tmp_message)%nat →
  match read_loop buffer i tmp_length tmp_message with
  | Copied r out =>
    out = before_zero (take tmp_length tmp_message) ∧ r = Z.of_nat (length out)
  | Faulted out =>
    ∃ rest, before_zero (take tmp_length tmp_message) = out ++ rest
  | Overrun => False
  end.
Proof.
  revert i tmp_message.
  induction tmp_length as [|n IH]; intros i [|c m] Hlen;
    cbn [read_loop take before_zero]; try done.
  - cbn in Hlen. lia.
  - destruct (Byte.eqb c x00); [done|].
    destruct (buffer i); [|by eexists].
    specialize (IH (S i) m ltac:(cbn in Hlen; lia)).
    destruct (read_loop buffer (S i) n m) as [r' out'|out'|]; cbn [put].
    + destruct IH as [-> ->]. split; [done|]. cbn [length]. lia.
    + destruct IH as [rest ->]. by exists rest.
    + done.
Qed.

Lemma before_zero_no_zero l : x00 ∉ before_zero l.
Proof.
  destruct (before_zero_split l) as (rest & _ & Hz & _). exact Hz.
Qed.

(** X10.  What a read returns.  Between two calls, a [device_read] that
    returns has taken the oldest message off the queue and released what
    was allocated for it: three objects, or two when it had no bytes.  The
    byte count has dropped by exactly its stored length and the limit is
    unchanged.  The call has returned -EFAULT or the number of bytes it
    delivered; that number is at most [length] and at most 4096, the
    delivered bytes are the first bytes of the message, and none of them
    is zero. *)
Theorem read_result s buffer length r out s' :
  reachable s → 0 ≤ length →
  device_read buffer length s = Ret (r, out) s' →
  ∃ c cs,
    queued s (c :: cs) ∧ queued s' cs ∧
    (r = - EFAULT ∨
     (r = Z.of_nat (List.length out) ∧ r ≤ length ∧ r ≤ MAX_MESSAGE_SIZE)) ∧
    (∃ rest, c_bytes c = out ++ rest) ∧ (x00 ∉ out) ∧
    (∃ q q', queuep s = Some q ∧ queuep s' = Some q' ∧
             messages_size q'
             = messages_size q - Z.of_nat (List.length (c_bytes c))) ∧
    (size (heap s') + if bool_decide (c_bytes c = []) then 2 else 3)%nat
    = size (heap s) ∧
    MAX_MESSAGES_SIZE s' = MAX_MESSAGES_SIZE s.
Proof.
  intros Hreach Hlen Hread.
  destruct (reachable_footprint s Hreach) as (cs & Hq & Hdom & Hsize).
  destruct (decide (resident cs = 0)) as [Hz|Hnz].
  { by rewrite (device_read_blocked s _ buffer length (queued_queuep _ _ Hq) Hz)
      in Hread. }
  destruct cs as [|c cs]; [done|]. exists c, cs.
  rewrite (device_read_run s c cs buffer length Hq Hnz Hlen) in Hread.
  pose proof (queued_sizes _ _ Hq) as Hsz. apply Forall_cons in Hsz as [Hsz _].
  pose proof (after_read_tidy s c cs (conj Hq Hdom)) as [Hq' Hdom'].
  set (n := Z.to_nat (Z.min length (Z.of_nat (List.length (c_bytes c))))) in *.
  pose proof (read_loop_out buffer 0 n (c_bytes c) ltac:(lia)) as Hout.
  destruct (before_zero_split (take n (c_bytes c))) as (rest & Hsplit & Hnz0 & _).
  pose proof (take_drop n (c_bytes c)) as Htake.
  assert (Hstate : s' = after_read s c cs ∧
            (r = - EFAULT ∨ r = Z.of_nat (List.length out)) ∧
            (∃ rest', before_zero (take n (c_bytes c)) = out ++ rest')).
  { destruct (read_loop _ _ _ _) as [r' out'|out'|]; [| |done].
    - injection Hread as <- <- <-. destruct Hout as [-> ->].
      split_and!; [done|by right|]. exists []. by rewrite app_nil_r.
    - injection Hread as <- <- <-. split_and!; [done|by left|done]. }
  destruct Hstate as (-> & Hr & rest' & Hpre).
  assert (Hstored : c_bytes c = out ++ (rest' ++ rest ++ drop n (c_bytes c))).
  { rewrite <- Htake at 1. rewrite Hsplit, Hpre. by rewrite <- !app_assoc. }
  assert (Hshort : (List.length out ≤ n)%nat).
  { pose proof (f_equal List.length Hsplit) as Hl.
    rewrite Hpre, !length_app, length_take in Hl. lia. }
  split_and!; try done.
  - destruct Hr as [->| ->]; [by left|right].
    split_and!; [done|lia|]. unfold MAX_MESSAGE_SIZE in *. lia.
  - by eexists.
  - rewrite Hpre in Hnz0. intros Hin. apply Hnz0, elem_of_app. by left.
  - eexists _, _. split_and!; [apply (queued_queuep _ _ Hq)|reflexivity|].
    cbn. rewrite resident_cons. lia.
  - rewrite <- (size_dom (heap (after_read s c cs))), Hdom', Hsize.
    rewrite size_list_to_set by apply (queued_NoDup _ _ Hq').
    rewrite addresses_cons. cbn [List.length].
    rewrite length_app, length_live_buffer. case_bool_decide; lia.
Qed.

Lemma read_result_witness :
  ∃ c cs,
    queued ten_queued (c :: cs) ∧ queued (after_read ten_queued ten_cell []) cs ∧
    (5 = - EFAULT ∨
     (5 = Z.of_nat (List.length [x30; x31; x32; x33; x34]) ∧ 5 ≤ 5 ∧
      5 ≤ MAX_MESSAGE_SIZE)) ∧
    (∃ rest, c_bytes c = [x30; x31; x32; x33; x34] ++ rest) ∧
    (x00 ∉ [x30; x31; x32; x33; x34]) ∧
    (∃ q q', queuep ten_queued = Some q ∧
             queuep (after_read ten_queued ten_cell []) = Some q' ∧
             messages_size q'
             = messages_size q - Z.of_nat (List.length (c_bytes c))) ∧
    (size (heap (after_read ten_queued ten_cell []))
     + if bool_decide (c_bytes c = []) then 2 else 3)%nat
    = size (heap ten_queued) ∧
    MAX_MESSAGES_SIZE (after_read ten_queued ten_cell [])
    = MAX_MESSAGES_SIZE ten_queued.
Proof.
  apply (read_result ten_queued (sink_of 5) 5).
  - apply (reachable_perform loaded (Write (source_of ten_bytes) 10 all_ok)).
    + apply reachable_loaded.
    + vm_compute. split; [discriminate|reflexivity].
    + vm_compute. reflexivity.
  - lia.
  - vm_compute. reflexivity.
Defined.

(** X11.  A write does not change what the next read returns.  Between
    two calls, when a read would not sleep, a write that returns, with
    or without success, leaves the return value and the delivered bytes
    of that read as they were: the new message goes behind the others. *)
Theorem write_keeps_oldest s buffer length g r s' sink n :
  reachable s → 0 ≤ length → 0 ≤ n →
  device_write buffer length g s = Ret r s' →
  device_read sink n s ≠ Blocked →
  value (device_read sink n s') = value (device_read sink n s).
Proof.
  intros Hreach Hlen Hn Hw Hread.
  destruct (reachable_queued s Hreach) as (cs & Hq & _).
  destruct (decide (resident cs = 0)) as [Hz|Hnz].
  { destruct Hread.
    by apply (device_read_blocked s _ sink n (queued_queuep _ _ Hq)). }
  destruct (decide (length > MAX_MESSAGE_SIZE)) as [Hbig|Hsmall].
  { rewrite device_write_too_large in Hw by done. by injection Hw as _ <-. }
  destruct (device_write_run s cs buffer length g Hq ltac:(lia))
    as [[_ Hw']|[_ [[Hw' _]|(m & c' & s1 & _ & _ & Hw' & _ & Hq1 & _)]]];
    rewrite Hw' in Hw; [done|by injection Hw as _ <-|].
  injection Hw as _ <-.
  destruct cs as [|c cs]; [done|].
  change ((c :: cs) ++ [c']) with (c :: (cs ++ [c'])) in Hq1.
  assert (Hnz1 : resident (c :: (cs ++ [c'])) ≠ 0).
  { rewrite resident_cons, resident_snoc. rewrite resident_cons in Hnz.
    pose proof (resident_nonneg cs). lia. }
  rewrite (device_read_run s c cs sink n Hq Hnz Hn).
  rewrite (device_read_run s1 c (cs ++ [c']) sink n Hq1 Hnz1 Hn).
  by destruct (read_loop _ _ _ _).
Qed.

Lemma write_keeps_oldest_witness :
  value (device_read (sink_of 8) 8
           (after (device_write (source_of [x61]) 1 all_ok ten_queued)))
  = value (device_read (sink_of 8) 8 ten_queued).
Proof.
  apply (write_keeps_oldest ten_queued (source_of [x61]) 1 all_ok 1).
  - apply (reachable_perform loaded (Write (source_of ten_bytes) 10 all_ok)).
    + apply reachable_loaded.
    + vm_compute. split; [discriminate|reflexivity].
    + vm_compute. reflexivity.
  - lia.
  - lia.
  - vm_compute. reflexivity.
  - vm_compute. discriminate.
Defined.



(** X13.  Without a queue.  When [queuep] is NULL, as after a failed
    [char_device_driver_init] or after [char_device_driver_exit], both
    predicates return -1, which is neither of the values the waits look
    for: every read and every write of at most 4096 bytes sleeps.
    [enqueue] returns SUCCESS although it stores nothing, [dequeue]
    returns NULL, [release_queue] has nothing to do, and the resize
    command dereferences NULL. *)
Theorem without_queue s :
  queuep s = None →
  is_queue_empty s = Ret (-1) s ∧
  (∀ length, is_space_in_queue length s = Ret (-1) s) ∧
  (∀ buffer length, device_read buffer length s = Blocked) ∧
  (∀ buffer length g, length ≤ MAX_MESSAGE_SIZE →
                      device_write buffer length g s = Blocked) ∧
  (∀ message message_size g, enqueue message message_size g s = Ret SUCCESS s) ∧
  dequeue s = Ret NULL s ∧
  (∀ fuel, release_queue fuel s = Ret true s) ∧
  (∀ ioctl_param, device_ioctl CHANGE_MAX_MESSAGES_SIZE ioctl_param s = Oops).
Proof.
  intros Hq. split_and!; intros.
  - unfold is_queue_empty. cbn. by rewrite Hq.
  - unfold is_space_in_queue. cbn. by rewrite Hq.
  - unfold device_read, is_queue_empty. cbn. by rewrite Hq.
  - unfold device_write, device_write_wait, is_space_in_queue.
    rewrite bool_decide_eq_false_2 by lia. cbn. by rewrite Hq.
  - by apply enqueue_NULL.
  - unfold dequeue. cbn. by rewrite Hq.
  - unfold release_queue. cbn. by rewrite Hq.
  - unfold device_ioctl. rewrite bool_decide_eq_true_2 by done. cbn.
    by rewrite Hq.
Qed.

Lemma without_queue_witness :
  is_queue_empty unloaded = Ret (-1) unloaded ∧
  (∀ length, is_space_in_queue length unloaded = Ret (-1) unloaded) ∧
  (∀ buffer length, device_read buffer length unloaded = Blocked) ∧
  (∀ buffer length g, length ≤ MAX_MESSAGE_SIZE →
                      device_write buffer length g unloaded = Blocked) ∧
  (∀ message message_size g,
     enqueue message message_size g unloaded = Ret SUCCESS unloaded) ∧
  dequeue unloaded = Ret NULL unloaded ∧
  (∀ fuel, release_queue fuel unloaded = Ret true unloaded) ∧
  (∀ ioctl_param,
     device_ioctl CHANGE_MAX_MESSAGES_SIZE ioctl_param unloaded = Oops).
Proof. apply (without_queue unloaded). reflexivity. Defined.

(** ** Threads between the check and the act *)

Lemma device_write_send_run s cs buffer length g message :
  queued s cs → 0 ≤ length ≤ MAX_MESSAGE_SIZE →
  get_user_loop buffer 0 (Z.to_nat length) = Some message →
  allocations_succeed g s length →
  ∃ c s', device_write_send buffer length g s = Ret length s' ∧
          c_bytes c = message ∧ queued s' (cs ++ [c]) ∧
          MAX_MESSAGES_SIZE s' = MAX_MESSAGES_SIZE s ∧
          heap_bytes (heap s') = heap_bytes (heap s) + 32 + length.
Proof.
  intros Hq Hlen Hget Hyes. unfold device_write_send. rewrite Hget.
  apply get_user_loop_length in Hget as Hl.
  assert (Hsize : to_ushort length = Z.of_nat (List.length message)).
  { rewrite to_ushort_small by done. lia. }
  destruct (enqueue_run s cs message (to_ushort length) g Hq Hsize)
    as (r & s' & Henq & Hcases); [lia|].
  cbn. rewrite Henq. rewrite to_ushort_small in Hcases by done.
  destruct Hcases
    as [(_ & _ & Hno)|(-> & _ & c & Hc & Hq' & Hmax & _ & _ & Hhb)]; [done|].
  exists c, s'. by rewrite bool_decide_eq_false_2 by (intros Hne; by apply Hne).
Qed.

Lemma device_write_wait_room s cs length :
  queued s cs → 0 ≤ length ≤ MAX_MESSAGE_SIZE →
  resident cs + length ≤ MAX_MESSAGES_SIZE s →
  heap_bytes (heap s) + length < ULONG_MODULUS →
  device_write_wait length s = Ret None s.
Proof.
  intros Hq Hlen Hroom Hfit.
  rewrite (device_write_wait_run s cs length Hq Hlen).
  pose proof (resident_le_heap_bytes _ _ (queued_chain _ _ Hq)
                (queued_NoDup _ _ Hq)) as Hres.
  pose proof (resident_nonneg cs) as Hres0.
  rewrite to_ulong_small by lia. by rewrite bool_decide_eq_false_2 by lia.
Qed.

(** X14.  Two writers between check and enqueue.  From a state between
    two calls, let two writers each find room for their own message and
    only then copy and enqueue.  Both writes return their length and the
    byte count grows by both lengths, the limit being what it was: when
    the two messages do not fit together, the limit is exceeded. *)
Theorem writers_race s q buffer1 length1 message1 buffer2 length2 message2 :
  reachable s → queuep s = Some q →
  0 ≤ length1 ≤ MAX_MESSAGE_SIZE → 0 ≤ length2 ≤ MAX_MESSAGE_SIZE →
  messages_size q + length1 ≤ MAX_MESSAGES_SIZE s →
  messages_size q + length2 ≤ MAX_MESSAGES_SIZE s →
  get_user_loop buffer1 0 (Z.to_nat length1) = Some message1 →
  get_user_loop buffer2 0 (Z.to_nat length2) = Some message2 →
  heap_bytes (heap s) + 64 + length1 + length2 < ULONG_MODULUS →
  ∃ s' q',
    run_threads [0; 1; 0; 1]%nat
      [WriterWaits buffer1 length1 all_ok; WriterWaits buffer2 length2 all_ok] s
      = ([Exited length1; Exited length2], s') ∧
    queuep s' = Some q' ∧
    messages_size q' = messages_size q + length1 + length2 ∧
    MAX_MESSAGES_SIZE s' = MAX_MESSAGES_SIZE s.
Proof.
  intros Hreach Hqp Hl1 Hl2 Hroom1 Hroom2 Hget1 Hget2 Hfit.
  destruct (reachable_queued s Hreach) as (cs & Hq & _).
  rewrite (queued_queuep _ _ Hq) in Hqp. injection Hqp as <-.
  cbn [messages_size] in *.
  pose proof (heap_bytes_nonneg (heap s)) as Hh0.
  destruct (device_write_send_run s cs buffer1 length1 all_ok message1 Hq Hl1 Hget1)
    as (c1 & s1 & Hsend1 & Hc1 & Hq1 & Hmax1 & Hhb1).
  { split_and!; [done|done|by right|lia]. }
  destruct (device_write_send_run s1 (cs ++ [c1]) buffer2 length2 all_ok message2
              Hq1 Hl2 Hget2)
    as (c2 & s2 & Hsend2 & Hc2 & Hq2 & Hmax2 & Hhb2).
  { split_and!; [done|done|by right|lia]. }
  exists s2, (MessageQueue (first_node ((cs ++ [c1]) ++ [c2]))
                           (last_node ((cs ++ [c1]) ++ [c2]))
                           (resident ((cs ++ [c1]) ++ [c2]))).
  split_and!.
  - cbn [run_threads lookup list_lookup thread_step].
    rewrite (device_write_wait_room s cs length1 Hq Hl1 Hroom1) by lia.
    cbn [insert list_insert lookup list_lookup thread_step].
    rewrite (device_write_wait_room s cs length2 Hq Hl2 Hroom2) by lia.
    cbn [insert list_insert lookup list_lookup thread_step].
    rewrite Hsend1.
    cbn [insert list_insert lookup list_lookup thread_step].
    by rewrite Hsend2.
  - apply (queued_queuep _ _ Hq2).
  - cbn. rewrite !resident_snoc, Hc1, Hc2.
    apply get_user_loop_length in Hget1, Hget2. lia.
  - congruence.
Qed.

(** The limit at 11, 10 bytes queued, two writers of one byte each. *)
Lemma writers_race_witness :
  ∃ s' q',
    run_threads [0; 1; 0; 1]%nat
      [WriterWaits (source_of [x61]) 1 all_ok;
       WriterWaits (source_of [x62]) 1 all_ok]
      (after (device_ioctl 0 11 ten_queued))
      = ([Exited 1; Exited 1], s') ∧
    queuep s' = Some q' ∧
    messages_size q' = messages_size (MessageQueue 17%N 17%N 10) + 1 + 1 ∧
    MAX_MESSAGES_SIZE s'
      = MAX_MESSAGES_SIZE (after (device_ioctl 0 11 ten_queued)).
Proof.
  apply (writers_race (after (device_ioctl 0 11 ten_queued))
           (MessageQueue 17%N 17%N 10)
           (source_of [x61]) 1 [x61] (source_of [x62]) 1 [x62]).
  - apply (reachable_perform ten_queued (Ioctl 0 11)).
    + apply (reachable_perform loaded (Write (source_of ten_bytes) 10 all_ok)).
      * apply reachable_loaded.
      * vm_compute. split; [discriminate|reflexivity].
      * vm_compute. reflexivity.
    + vm_compute. repeat split; discriminate.
    + vm_compute. reflexivity.
  - vm_compute. reflexivity.
  - vm_compute. split; discriminate.
  - vm_compute. split; discriminate.
  - vm_compute. discriminate.
  - vm_compute. discriminate.
  - reflexivity.
  - reflexivity.
  - vm_compute. reflexivity.
Defined.

Lemma device_read_wait_bytes s q :
  queuep s = Some q → messages_size q ≠ 0 → device_read_wait s = Ret tt s.
Proof.
  intros Hq Hnz. unfold device_read_wait, is_queue_empty. cbn. rewrite Hq. cbn.
  rewrite bool_decide_eq_false_2 by done. done.
Qed.

Lemma device_read_pieces buffer length s :
  device_read buffer length s =
    bind device_read_wait (λ _, device_read_take buffer length) s.
Proof. reflexivity. Qed.

(** X15.  Two readers between check and dequeue.  From a state between
    two calls in which exactly one message is queued ([head] equals
    [rear]) and a byte is counted, let two readers each find the queue not
    empty and only then dequeue.  The first read returns; the second gets
    NULL from [dequeue] and dereferences it. *)
Theorem readers_race s q buffer1 length1 buffer2 length2 :
  reachable s → queuep s = Some q →
  head q = rear q → messages_size q ≠ 0 →
  0 ≤ length1 →
  ∃ r s',
    run_threads [0; 1; 0; 1]%nat
      [ReaderWaits buffer1 length1; ReaderWaits buffer2 length2] s
      = ([Exited r; Crashed], s').
Proof.
  intros Hreach Hqp Hone Hnz Hlen.
  destruct (reachable_tidy s Hreach) as (cs & [Hq Hdom] & _).
  pose proof (queued_queuep _ _ Hq) as Hqp'. rewrite Hqp in Hqp'.
  injection Hqp' as ->. cbn [head rear messages_size] in *.
  destruct cs as [|c cs]; [done|].
  assert (cs = []) as ->.
  { destruct cs as [|c' cs]; [done|]. exfalso.
    pose proof (queued_NoDup _ _ Hq) as Hnd.
    apply NoDup_addresses_cons in Hnd as (_ & _ & Hn0 & _). apply Hn0.
    cbn [first_node] in Hone. rewrite Hone, last_node_cons.
    by apply last_node_addresses. }
  pose proof (after_read_tidy s c [] (conj Hq Hdom)) as [Hq1 Hdom1].
  assert (Hcrash : device_read_take buffer2 length2 (after_read s c []) = Oops).
  { unfold device_read_take. cbn [bind]. rewrite (dequeue_empty _ Hq1).
    cbn. by rewrite ZERO_OR_NULL_PTR_NULL. }
  destruct (device_read_returns s c [] buffer1 length1 Hq Hnz Hlen) as [[r out] Hread].
  rewrite device_read_pieces in Hread. cbn [bind] in Hread.
  rewrite (device_read_wait_bytes s _ Hqp Hnz) in Hread.
  exists r, (after_read s c []).
  cbn [run_threads lookup list_lookup thread_step].
  rewrite (device_read_wait_bytes s _ Hqp Hnz).
  cbn [insert list_insert lookup list_lookup thread_step].
  rewrite (device_read_wait_bytes s _ Hqp Hnz).
  cbn [insert list_insert lookup list_lookup thread_step].
  rewrite Hread.
  cbn [insert list_insert lookup list_lookup thread_step].
  by rewrite Hcrash.
Qed.

Lemma readers_race_witness :
  ∃ r s',
    run_threads [0; 1; 0; 1]%nat
      [ReaderWaits (sink_of 16) 16; ReaderWaits (sink_of 16) 16] ten_queued
      = ([Exited r; Crashed], s').
Proof.
  apply (readers_race ten_queued (MessageQueue 17%N 17%N 10)).
  - apply (reachable_perform loaded (Write (source_of ten_bytes) 10 all_ok)).
    + apply reachable_loaded.
    + vm_compute. split; [discriminate|reflexivity].
    + vm_compute. reflexivity.
  - vm_compute. reflexivity.
  - reflexivity.
  - vm_compute. discriminate.
  - lia.
Defined.

(** X16.  A resize between check and enqueue.  From a state between two
    calls, let a writer find room under the current limit, then let
    [device_ioctl] install a new limit above the bytes queued, then let
    the writer enqueue.  Both calls succeed and the byte count grows by
    the length of the message: when the new limit is below that sum, it
    is exceeded. *)
Theorem resize_race s q buffer length message x :
  reachable s → queuep s = Some q →
  0 ≤ length ≤ MAX_MESSAGE_SIZE →
  messages_size q + length ≤ MAX_MESSAGES_SIZE s →
  get_user_loop buffer 0 (Z.to_nat length) = Some message →
  heap_bytes (heap s) + 32 + length < ULONG_MODULUS →
  x > messages_size q →
  ∃ s' q',
    run_threads [0; 1; 0]%nat
      [WriterWaits buffer length all_ok; Resizer CHANGE_MAX_MESSAGES_SIZE x] s
      = ([Exited length; Exited SUCCESS], s') ∧
    queuep s' = Some q' ∧
    messages_size q' = messages_size q + length ∧
    MAX_MESSAGES_SIZE s' = x.
Proof.
  intros Hreach Hqp Hl Hroom Hget Hfit Hx.
  destruct (reachable_queued s Hreach) as (cs & Hq & _).
  pose proof (queued_queuep _ _ Hq) as Hqp'. rewrite Hqp in Hqp'.
  injection Hqp' as ->. cbn [messages_size] in *.
  pose proof (heap_bytes_nonneg (heap s)) as Hh0.
  set (s1 := State (heap s) (queuep s) x).
  assert (Hq1 : queued s1 cs).
  { apply (queued_limit _ _ x Hq). }
  destruct (device_write_send_run s1 cs buffer length all_ok message Hq1 Hl Hget)
    as (c & s2 & Hsend & Hc & Hq2 & Hmax2 & _).
  { split_and!; [done|done|by right|cbn; lia]. }
  exists s2, (MessageQueue (first_node (cs ++ [c])) (last_node (cs ++ [c]))
                           (resident (cs ++ [c]))).
  split_and!.
  - cbn [run_threads lookup list_lookup thread_step].
    rewrite (device_write_wait_room s cs length Hq Hl Hroom) by lia.
    cbn [insert list_insert lookup list_lookup thread_step].
    rewrite (device_ioctl_run s _ _ x Hqp).
    rewrite bool_decide_eq_true_2 by done.
    cbn [insert list_insert lookup list_lookup thread_step].
    fold s1. by rewrite Hsend.
  - apply (queued_queuep _ _ Hq2).
  - cbn. rewrite resident_snoc, Hc. apply get_user_loop_length in Hget. lia.
  - by rewrite Hmax2.
Qed.

(** 10 bytes queued under the default limit; a writer of 5 bytes is let
    through, then the limit drops to 11: 15 bytes under a limit of 11. *)
Lemma resize_race_witness :
  ∃ s' q',
    run_threads [0; 1; 0]%nat
      [WriterWaits (source_of [x61; x62; x63; x64; x65]) 5 all_ok;
       Resizer CHANGE_MAX_MESSAGES_SIZE 11] ten_queued
      = ([Exited 5; Exited SUCCESS], s') ∧
    queuep s' = Some q' ∧
    messages_size q' = messages_size (MessageQueue 17%N 17%N 10) + 5 ∧
    MAX_MESSAGES_SIZE s' = 11.
Proof.
  apply (resize_race ten_queued (MessageQueue 17%N 17%N 10)
           (source_of [x61; x62; x63; x64; x65]) 5 [x61; x62; x63; x64; x65] 11).
  - apply (reachable_perform loaded (Write (source_of ten_bytes) 10 all_ok)).
    + apply reachable_loaded.
    + vm_compute. split; [discriminate|reflexivity].
    + vm_compute. reflexivity.
  - vm_compute. reflexivity.
  - vm_compute. split; discriminate.
  - vm_compute. discriminate.
  - reflexivity.
  - vm_compute. reflexivity.
  - vm_compute. reflexivity.
Defined.

(** ** What a write stores *)

Lemma get_user_loop_bytes buffer n : ∀ i l,
  get_user_loop buffer i n = Some l →
  ∀ j, (j < n)%nat → buffer (i + j)%nat = l !! j.
Proof.
  induction n as [|n IH]; intros i l Hget j Hj; [lia|].
  cbn [get_user_loop] in Hget.
  destruct (buffer i) as [c|] eqn:Hc; [|done].
  destruct (get_user_loop buffer (S i) n) as [l'|] eqn:Hl'; [|done].
  injection Hget as <-. destruct j as [|j].
  - by rewrite Nat.add_0_r.
  - cbn. replace (i + S j)%nat with (S i + j)%nat by lia.
    apply (IH _ _ Hl'). lia.
Qed.

(** X17.  A successful write stores the user's bytes.  Between two calls,
    when a [device_write] returns [length], the message linked behind the
    others has exactly [length] characters, and its character at each
    offset below [length] is the byte [get_user] finds at that offset of
    the user's buffer, zero bytes included. *)
Theorem write_stores_buffer s buffer length g s' :
  reachable s → 0 ≤ length →
  device_write buffer length g s = Ret length s' →
  ∃ cs c, queued s cs ∧ queued s' (cs ++ [c]) ∧
          Z.of_nat (List.length (c_bytes c)) = length ∧
          ∀ j, (j < Z.to_nat length)%nat → buffer j = c_bytes c !! j.
Proof.
  intros Hreach Hlen Hw.
  destruct (reachable_queued s Hreach) as (cs & Hq & _).
  destruct (decide (length > MAX_MESSAGE_SIZE)) as [Hbig|Hsmall].
  { rewrite device_write_too_large in Hw by done. injection Hw as Hr _.
    unfold EINVAL in Hr. lia. }
  destruct (device_write_run s cs buffer length g Hq ltac:(lia))
    as [[_ Hw']|[_ [[Hw' _]|(m & c & s1 & Hget & _ & Hw' & Hc & Hq1 & _)]]];
    rewrite Hw' in Hw; [done| |].
  { injection Hw as Hr _. unfold EFAULT in Hr. lia. }
  injection Hw as <-. exists cs, c. split_and!; try done.
  - rewrite Hc. apply get_user_loop_length in Hget. lia.
  - intros j Hj. rewrite Hc. by apply (get_user_loop_bytes buffer _ 0 m Hget).
Qed.

Lemma write_stores_buffer_witness :
  ∃ cs c, queued loaded cs ∧ queued zero_queued (cs ++ [c]) ∧
          Z.of_nat (List.length (c_bytes c)) = 4 ∧
          ∀ j, (j < Z.to_nat 4)%nat → source_of zero_inside j = c_bytes c !! j.
Proof.
  apply (write_stores_buffer loaded (source_of zero_inside) 4 all_ok).
  - apply reachable_loaded.
  - lia.
  - vm_compute. reflexivity.
Defined.
